(** * Geolocation telemetry of the Orion SDK (Utils/GeolocateTelemetry.c)

    A shallow embedding of the telemetry decoder, the offset projector, the
    terrain intersector and the geolocate history buffer, together with the
    properties stated about them.

    The C code computes with [float] and [double].  The embedding is written
    once over an arithmetic signature ([Arith]) and read in two ways:
    - [IEEE754]: binary32 and binary64 with round-to-nearest-even, as the
      code runs on the usual targets (executable, from [SpecFloat]);
    - [Exact]: the same program text computed without rounding, over the
      real numbers, for the properties stated up to rounding error. *)

From Stdlib Require Import ZArith Lia Bool Reals Lra.
From Stdlib Require Import Floats.SpecFloat.
From stdpp Require Import base list.

Local Open Scope Z_scope.

(** ** Vectors *)

(** A C array of three scalars.  The index constants of the headers
    ([NORTH], [EAST], [DOWN]; [LAT], [LON], [ALT]; [VECTOR3X] ...;
    [AXIS_ROLL] ...) all number the three slots 0, 1, 2. *)
Inductive ix3 := I0 | I1 | I2.

Record vec3 (T : Type) := Vec3 { c0 : T; c1 : T; c2 : T }.
Arguments Vec3 {T} _ _ _.
Arguments c0 {T} _.
Arguments c1 {T} _.
Arguments c2 {T} _.

Definition at3 {T} (v : vec3 T) (i : ix3) : T :=
  match i with I0 => c0 v | I1 => c1 v | I2 => c2 v end.

Definition set3 {T} (v : vec3 T) (i : ix3) (x : T) : vec3 T :=
  match i with
  | I0 => Vec3 x (c1 v) (c2 v)
  | I1 => Vec3 (c0 v) x (c2 v)
  | I2 => Vec3 (c0 v) (c1 v) x
  end.

Notation "v .[ i ]" := (at3 v i) (at level 1, left associativity, format "v .[ i ]").

Abbreviation NORTH := I0 (only parsing).
Abbreviation EAST := I1 (only parsing).
Abbreviation DOWN := I2 (only parsing).
Abbreviation LAT := I0 (only parsing).
Abbreviation LON := I1 (only parsing).
Abbreviation ALT := I2 (only parsing).
Abbreviation VECTOR3X := I0 (only parsing).
Abbreviation VECTOR3Y := I1 (only parsing).
Abbreviation VECTOR3Z := I2 (only parsing).

(** ** Arithmetic signature *)

Class Arith := {
  float : Type;                          (* C float *)
  double : Type;                         (* C double *)
  (* decimal literal m * 10^e, as the compiler converts it *)
  flit : Z -> Z -> float;
  dlit : Z -> Z -> double;
  fadd : float -> float -> float;
  fsub : float -> float -> float;
  fmul : float -> float -> float;
  fdiv : float -> float -> float;
  fneg : float -> float;
  fsqrt : float -> float;                (* sqrtf *)
  feq : float -> float -> bool;          (* == *)
  flt : float -> float -> bool;          (* <  *)
  fle : float -> float -> bool;          (* <= *)
  dadd : double -> double -> double;
  dsub : double -> double -> double;
  dmul : double -> double -> double;
  ddiv : double -> double -> double;
  deq : double -> double -> bool;
  dlt : double -> double -> bool;
  dle : double -> double -> bool;
  d2f : double -> float;                 (* (float)x *)
  f2d : float -> double;                 (* (double)x *)
  z2d : Z -> double                      (* (double)i for an integer i *)
}.

Declare Scope arith_scope.
Delimit Scope arith_scope with A.
Infix "+f" := fadd (at level 50, left associativity) : arith_scope.
Infix "-f" := fsub (at level 50, left associativity) : arith_scope.
Infix "*f" := fmul (at level 40, left associativity) : arith_scope.
Infix "/f" := fdiv (at level 40, left associativity) : arith_scope.
Infix "==f" := feq (at level 70, no associativity) : arith_scope.
Infix "<f" := flt (at level 70, no associativity) : arith_scope.
Infix "<=f" := fle (at level 70, no associativity) : arith_scope.
Infix "+d" := dadd (at level 50, left associativity) : arith_scope.
Infix "-d" := dsub (at level 50, left associativity) : arith_scope.
Infix "*d" := dmul (at level 40, left associativity) : arith_scope.
Infix "/d" := ddiv (at level 40, left associativity) : arith_scope.
Infix "==d" := deq (at level 70, no associativity) : arith_scope.
Infix "<d" := dlt (at level 70, no associativity) : arith_scope.
Infix "<=d" := dle (at level 70, no associativity) : arith_scope.
Local Open Scope arith_scope.

(** *** IEEE 754 binary32 and binary64 *)

Module IEEE.

(** The integer [m], rounded to the format. *)
Definition of_Z (prec emax : Z) (m : Z) : spec_float :=
  binary_normalize prec emax m 0 false.

(** Correctly rounded quotient of two positive integers. *)
Definition of_ratio (prec emax : Z) (s : bool) (n d : positive) : spec_float :=
  let '(q, e, l) := SFdiv_core_binary prec emax (Zpos n) 0 (Zpos d) 0 in
  binary_round_aux prec emax s q e l.

(** The decimal literal [m * 10^e], rounded to the format. *)
Definition lit (prec emax : Z) (m e : Z) : spec_float :=
  match m, e with
  | Z0, _ => S754_zero false
  | _, Zneg p => of_ratio prec emax (m <? 0) (Z.to_pos (Z.abs m)) (10 ^ p)%positive
  | _, _ => of_Z prec emax (m * 10 ^ e)
  end.

(** Conversion between formats: the value is rounded to the target. *)
Definition convert (prec emax : Z) (x : spec_float) : spec_float :=
  match x with
  | S754_finite s m e => binary_round prec emax s m e
  | _ => x
  end.

(** A value that is a number (neither an infinity nor a NaN). *)
Definition is_finite (x : spec_float) : bool :=
  match x with
  | S754_zero _ | S754_finite _ _ _ => true
  | _ => false
  end.

(** A zero of either sign ([x == 0] in C). *)
Definition is_zero (x : spec_float) : bool :=
  match x with
  | S754_zero _ => true
  | _ => false
  end.

Definition all3 (P : spec_float -> bool) (v : vec3 spec_float) : bool :=
  P (c0 v) && P (c1 v) && P (c2 v).

End IEEE.

Definition IEEE754 : Arith := {|
  float := spec_float;
  double := spec_float;
  flit := IEEE.lit 24 128;
  dlit := IEEE.lit 53 1024;
  fadd := SFadd 24 128;
  fsub := SFsub 24 128;
  fmul := SFmul 24 128;
  fdiv := SFdiv 24 128;
  fneg := SFopp;
  fsqrt := SFsqrt 24 128;
  feq := SFeqb;
  flt := SFltb;
  fle := SFleb;
  dadd := SFadd 53 1024;
  dsub := SFsub 53 1024;
  dmul := SFmul 53 1024;
  ddiv := SFdiv 53 1024;
  deq := SFeqb;
  dlt := SFltb;
  dle := SFleb;
  d2f := IEEE.convert 24 128;
  f2d := IEEE.convert 53 1024;
  z2d := IEEE.of_Z 53 1024
|}.

(** *** Exact arithmetic *)

Module ExactR.

Definition lit (m e : Z) : R :=
  match e with
  | Zneg p => (IZR m / IZR (Zpos (10 ^ p)))%R
  | _ => IZR (m * 10 ^ e)
  end.

Definition eqb (x y : R) : bool := if Req_dec_T x y then true else false.
Definition ltb (x y : R) : bool := if Rlt_dec x y then true else false.
Definition leb (x y : R) : bool := if Rle_dec x y then true else false.

End ExactR.

Definition Exact : Arith := {|
  float := R;
  double := R;
  flit := ExactR.lit;
  dlit := ExactR.lit;
  fadd := Rplus;
  fsub := Rminus;
  fmul := Rmult;
  fdiv := Rdiv;
  fneg := Ropp;
  fsqrt := sqrt;
  feq := ExactR.eqb;
  flt := ExactR.ltb;
  fle := ExactR.leb;
  dadd := Rplus;
  dsub := Rminus;
  dmul := Rmult;
  ddiv := Rdiv;
  deq := ExactR.eqb;
  dlt := ExactR.ltb;
  dle := ExactR.leb;
  d2f := fun x => x;
  f2d := fun x => x;
  z2d := IZR
|}.

(** ** Rotation matrices, quaternions, library primitives *)

Section LinearAlgebra.
Context {A : Arith}.

(** The rotation matrix type [DCM_t] of the SDK, as a value: three rows of
    three floats.  (The C struct points into backing storage of its
    enclosing struct; [copyGeolocateTelemetry] re-targets those pointers
    after the struct assignment, so that a copy is a copy of the nine
    values.) *)
Definition DCM_t : Type := vec3 (vec3 float).

Record quat := Quat { q0 : float; q1 : float; q2 : float; q3 : float }.

Definition dcmGet (M : DCM_t) (row col : ix3) : float := M.[row].[col].

Definition fzero : float := flit 0 0.
Definition fone : float := flit 1 0.
Definition ftwo : float := flit 2 0.

(** The vector and matrix primitives of the SDK (linearalgebra.h, dcm.h)
    are not part of the source at hand; each is given by what it is used
    for in the code and the spec. *)

(** Modelled from the spec: [vector3Sumf] is missing; the componentwise
    sum of two float vectors. *)
Definition vector3Sumf (a b : vec3 float) : vec3 float :=
  Vec3 (c0 a +f c0 b) (c1 a +f c1 b) (c2 a +f c2 b).

(** Modelled from the spec: [vector3Sum] is missing; the componentwise
    sum of two double vectors. *)
Definition vector3Sum (a b : vec3 double) : vec3 double :=
  Vec3 (c0 a +d c0 b) (c1 a +d c1 b) (c2 a +d c2 b).

(** Modelled from the spec: [vector3Scalef] is missing; a float vector
    times a scalar. *)
Definition vector3Scalef (v : vec3 float) (s : float) : vec3 float :=
  Vec3 (c0 v *f s) (c1 v *f s) (c2 v *f s).

(** Modelled from the spec: [vector3Scale] is missing; a double vector
    times a scalar. *)
Definition vector3Scale (v : vec3 double) (s : double) : vec3 double :=
  Vec3 (c0 v *d s) (c1 v *d s) (c2 v *d s).

(** Modelled from the spec: [vector3Crossf] is missing; the cross product
    ("omega cross r"). *)
Definition vector3Crossf (a b : vec3 float) : vec3 float :=
  Vec3 (c1 a *f c2 b -f c2 a *f c1 b)
       (c2 a *f c0 b -f c0 a *f c2 b)
       (c0 a *f c1 b -f c1 a *f c0 b).

(** Modelled from the spec: [vector3Lengthf] is missing; the magnitude of
    a float vector. *)
Definition vector3Lengthf (v : vec3 float) : float :=
  fsqrt (c0 v *f c0 v +f c1 v *f c1 v +f c2 v *f c2 v).

(** Modelled from the spec: [vector3Setf] is missing; all three
    components set to one value. *)
Definition vector3Setf (s : float) : vec3 float := Vec3 s s s.

(** Modelled from the spec: [vector3Convertf] is missing; a float vector
    converted to double precision. *)
Definition vector3Convertf (v : vec3 float) : vec3 double :=
  Vec3 (f2d (c0 v)) (f2d (c1 v)) (f2d (c2 v)).

Definition dot3 (a b : vec3 float) : float :=
  c0 a *f c0 b +f c1 a *f c1 b +f c2 a *f c2 b.

(** Modelled from the spec: [dcmApplyRotation] is missing; the rotation
    of a vector by a matrix, [M * v]. *)
Definition dcmApplyRotation (M : DCM_t) (v : vec3 float) : vec3 float :=
  Vec3 (dot3 (c0 M) v) (dot3 (c1 M) v) (dot3 (c2 M) v).

Definition column (M : DCM_t) (j : ix3) : vec3 float :=
  Vec3 (dcmGet M I0 j) (dcmGet M I1 j) (dcmGet M I2 j).

(** Modelled from the spec: [matrixMultiplyf] is missing; the matrix
    product [M * B] ("gimbal-to-nav composed with camera-to-gimbal"). *)
Definition matrixMultiplyf (M B : DCM_t) : DCM_t :=
  let row r := Vec3 (dot3 r (column B I0)) (dot3 r (column B I1)) (dot3 r (column B I2)) in
  Vec3 (row (c0 M)) (row (c1 M)) (row (c2 M)).

(** Modelled from the spec: [matrixMultiplyTransAf] is missing; the
    product [M^T * B] ("R_old^T * R_new"). *)
Definition matrixMultiplyTransAf (M B : DCM_t) : DCM_t :=
  let row r := Vec3 (dot3 r (column B I0)) (dot3 r (column B I1)) (dot3 r (column B I2)) in
  Vec3 (row (column M I0)) (row (column M I1)) (row (column M I2)).

(** Modelled from the spec: [quaternionToDCM] is not part of the source at
    hand; it is the rotation matrix of the attitude quaternion
    (scalar part first). *)
Definition quaternionToDCM (q : quat) : DCM_t :=
  let '(a, b, c, d) := (q0 q, q1 q, q2 q, q3 q) in
  Vec3
    (Vec3 (fone -f ftwo *f (c *f c +f d *f d))
          (ftwo *f (b *f c -f a *f d))
          (ftwo *f (b *f d +f a *f c)))
    (Vec3 (ftwo *f (b *f c +f a *f d))
          (fone -f ftwo *f (b *f b +f d *f d))
          (ftwo *f (c *f d -f a *f b)))
    (Vec3 (ftwo *f (b *f d -f a *f c))
          (ftwo *f (c *f d +f a *f b))
          (fone -f ftwo *f (b *f b +f c *f c))).

(** Modelled from the spec: the macro [MAX] is missing; the greater of two
    values. *)
Definition MAX (a b : double) : double := if b <d a then a else b.

End LinearAlgebra.

(** ** The C math library *)

Class Libm {A : Arith} := {
  sinf : float -> float;
  cosf : float -> float;
  tanf : float -> float
}.

Definition ExactLibm : @Libm Exact := @Build_Libm Exact sin cos tan.

Section Angles.
Context {A : Arith} {L : Libm}.

(** The constants and angle helpers of the SDK (Constants.h,
    mathutilities.h) are not part of the source at hand. *)

(** Modelled from the spec: the constant [PIf] is missing; pi as a float
    literal. *)
Definition PIf : float := flit 314159265358979323846 (-20).

(** Modelled from the spec: the constant [PI] is missing; pi as a double
    literal. *)
Definition PId : double := dlit 314159265358979323846 (-20).

(** Modelled from the spec: the macro [deg2radf] is missing; degrees to
    radians, a multiplication by the literal pi/180. *)
Definition deg2radf (a : float) : float := a *f flit 17453292519943295 (-18).

(** Modelled from the spec: [wrapAnglef] is missing; an angle brought back
    into (-180, 180] degrees by one turn. *)
Definition wrapAnglef (a : float) : float :=
  if PIf <f a then a -f ftwo *f PIf
  else if a <=f fneg PIf then a +f ftwo *f PIf
  else a.

(** Modelled from the spec: [wrapAngle] is missing; [wrapAnglef] in
    double precision. *)
Definition wrapAngle (a : double) : double :=
  if PId <d a then a -d dlit 2 0 *d PId
  else if a <=d dlit 0 0 -d PId then a +d dlit 2 0 *d PId
  else a.

(** Modelled from the spec: [wrapAngle90f] is missing; by the decoder's
    own comment it converts "from -180 to 180 into -270 to 90" degrees. *)
Definition wrapAngle90f (a : float) : float :=
  if deg2radf (flit 90 0) <f a then a -f ftwo *f PIf
  else if a <=f fneg (deg2radf (flit 270 0)) then a +f ftwo *f PIf
  else a.

(** Modelled from the spec: [subtractAnglesf] is missing; "angle
    subtraction wraps correctly across +-180 degrees". *)
Definition subtractAnglesf (l r : float) : float := wrapAnglef (l -f r).

(** Modelled from the spec: [addAngles] is missing; angle addition,
    wrapped like the subtraction. *)
Definition addAngles (l r : double) : double := wrapAngle (l +d r).

(** Modelled from the spec: [setDCMBasedOnPanTilt] is not part of the
    source at hand; it is the camera-to-gimbal rotation with pan over tilt
    (pan first, then tilt, like the yaw and pitch of Euler angles). *)
Definition setDCMBasedOnPanTilt (pan tilt : float) : DCM_t :=
  let cosPan := cosf pan in
  let sinPan := sinf pan in
  let cosTilt := cosf tilt in
  let sinTilt := sinf tilt in
  Vec3 (Vec3 (cosPan *f cosTilt) (fneg sinPan) (cosPan *f sinTilt))
       (Vec3 (sinPan *f cosTilt) cosPan (sinPan *f sinTilt))
       (Vec3 (fneg sinTilt) fzero cosTilt).

End Angles.

(** ** Telemetry records *)

(** Result of a C function that returns [BOOL] and writes its output
    argument only when it returns [TRUE]. *)
Inductive result (T : Type) := TRUE (out : T) | FALSE.
Arguments TRUE {T} _.
Arguments FALSE {T}.

Section Records.
Context {A : Arith}.

(** The fields of [GeolocateTelemetryCore_t] that the code reads.
    [systemTime] is a [uint32_t] in milliseconds; angles are in radians. *)
Record GeolocateTelemetryCore_t := {
  systemTime : Z;
  gpsITOW : Z;
  gpsWeek : Z;
  leapSeconds : Z;
  posLat : double;
  posLon : double;
  posAlt : double;
  velNED : vec3 float;
  gimbalQuat : quat;
  pan : float;
  tilt : float;
  outputShifts : float * float;        (* [GIMBAL_AXIS_PAN], [GIMBAL_AXIS_TILT] *)
  losECEF : vec3 float
}.

Record llaTrig_t := {
  sinLat : double;
  cosLat : double;
  sinLon : double;
  cosLon : double
}.

Record GeolocateTelemetry_t := {
  base : GeolocateTelemetryCore_t;
  Year : Z;
  Month : Z;
  Day : Z;
  Hour : Z;
  Minute : Z;
  Second : Z;
  llaTrig : llaTrig_t;
  posECEF : vec3 double;
  velECEF : vec3 float;
  gimbalDcm : DCM_t;
  cameraDcm : DCM_t;
  gimbalEuler : vec3 float;
  cameraEuler : vec3 float;
  cameraQuat : quat;
  slantRange : float;
  imagePosECEF : vec3 double;
  imagePosLLA : vec3 double
}.

Definition set_tilt (b : GeolocateTelemetryCore_t) (t : float) : GeolocateTelemetryCore_t :=
  {| systemTime := systemTime b; gpsITOW := gpsITOW b; gpsWeek := gpsWeek b;
     leapSeconds := leapSeconds b; posLat := posLat b; posLon := posLon b;
     posAlt := posAlt b; velNED := velNED b; gimbalQuat := gimbalQuat b;
     pan := pan b; tilt := t; outputShifts := outputShifts b;
     losECEF := losECEF b |}.

(** [GeolocateBuffer_t]: the array of [GEOLOCATE_BUFFER_SIZE] records, the
    write cursor [in] (here [buf_in]) and the number of entries held. *)
Record GeolocateBuffer_t := {
  geobuf : list GeolocateTelemetry_t;
  buf_in : Z;
  holding : Z
}.

End Records.

(** ** The rest of the SDK that the code calls

    The packet codec, the date and time decoding, the earth model (WGS84)
    and the conversions out of a rotation matrix are external to the code
    under study; it is parametric in them. *)

Class OrionLib {A : Arith} := {
  OrionPkt_t : Type;
  encodeGeolocateTelemetryCorePacketStructure : GeolocateTelemetryCore_t -> OrionPkt_t;
  decodeGeolocateTelemetryCorePacketStructure : OrionPkt_t -> option GeolocateTelemetryCore_t;
  (* year, month, day, hour, minute, second *)
  computeDateAndTimeFromWeekAndItow : Z -> Z -> Z -> Z * Z * Z * Z * Z * Z;
  llaToECEFandTrig : vec3 double -> vec3 double * llaTrig_t;
  nedToECEFtrigf : vec3 float -> llaTrig_t -> vec3 float;
  nedToECEFtrig : vec3 double -> llaTrig_t -> vec3 double;
  ecefToLLA : vec3 double -> vec3 double;
  dcmRoll : DCM_t -> float;
  dcmPitch : DCM_t -> float;
  dcmYaw : DCM_t -> float;
  dcmToQuaternion : DCM_t -> quat;
  datum_meanRadius : double
}.

(** ** The code *)

(** Conversion of a [uint32_t] value to [int32_t] (two's complement). *)
Definition to_uint32 (z : Z) : Z := z mod 2 ^ 32.
Definition to_int32 (z : Z) : Z :=
  let u := to_uint32 z in if u <? 2 ^ 31 then u else u - 2 ^ 32.

Section Decoder.
Context {A : Arith} {L : Libm} {E : OrionLib}.

(** [FormGeolocateTelemetry]: only the base fields are encoded. *)
Definition FormGeolocateTelemetry (pGeo : GeolocateTelemetry_t) : OrionPkt_t :=
  encodeGeolocateTelemetryCorePacketStructure (base pGeo).

(** The tilt after lines 41-43: from -180 to 180 into -270 to 90. *)
Definition extendedTilt (t : float) : float :=
  if deg2radf (flit 90 0) <f t then t -f deg2radf (flit 360 0) else t.

(** [DecodeGeolocateTelemetry], lines 30-95. *)
Definition DecodeGeolocateTelemetry (pPkt : OrionPkt_t) : result GeolocateTelemetry_t :=
  (* Only parse this packet if the ID and length look right *)
  match decodeGeolocateTelemetryCorePacketStructure pPkt with
  | Some base0 =>
    (* Date and time *)
    let '(year, month, day, hour, minute, second) :=
      computeDateAndTimeFromWeekAndItow (gpsWeek base0) (gpsITOW base0) (leapSeconds base0) in
    (* convert tilt from -180 to 180 into -270 to 90 *)
    let base1 :=
      if deg2radf (flit 90 0) <f tilt base0
      then set_tilt base0 (tilt base0 -f deg2radf (flit 360 0))
      else base0 in
    (* ECEF position and velocity *)
    let '(posECEF', llaTrig') :=
      llaToECEFandTrig (Vec3 (posLat base1) (posLon base1) (posAlt base1)) in
    let velECEF' := nedToECEFtrigf (velNED base1) llaTrig' in
    (* Rotation from gimbal to nav *)
    let gimbalDcm' := quaternionToDCM (gimbalQuat base1) in
    (* Gimbals Euler attitude *)
    let gimbalEuler' := Vec3 (dcmRoll gimbalDcm') (dcmPitch gimbalDcm') (dcmYaw gimbalDcm') in
    (* Offset the pan/tilt angles with the current estab output shifts *)
    let Pan := subtractAnglesf (pan base1) (fst (outputShifts base1)) in
    let Tilt := subtractAnglesf (tilt base1) (snd (outputShifts base1)) in
    let base2 := set_tilt base1 (wrapAngle90f (tilt base1)) in
    (* Rotation from camera to gimbal *)
    let tempDcm := setDCMBasedOnPanTilt Pan Tilt in
    (* Now create the rotation from camera to nav. *)
    let cameraDcm' := matrixMultiplyf gimbalDcm' tempDcm in
    (* Gimbal ECEF position + line of sight ECEF vector = ECEF image position *)
    let imagePosECEF' := vector3Sum posECEF' (vector3Convertf (losECEF base2)) in
    TRUE {|
      base := base2;
      Year := year; Month := month; Day := day;
      Hour := hour; Minute := minute; Second := second;
      llaTrig := llaTrig';
      posECEF := posECEF';
      velECEF := velECEF';
      gimbalDcm := gimbalDcm';
      cameraDcm := cameraDcm';
      gimbalEuler := gimbalEuler';
      (* The cameras quaternion and Euler angles *)
      cameraEuler := Vec3 (dcmRoll cameraDcm') (dcmPitch cameraDcm') (dcmYaw cameraDcm');
      cameraQuat := dcmToQuaternion cameraDcm';
      (* Slant range is the vector magnitude of the line of sight ECEF vector *)
      slantRange := vector3Lengthf (losECEF base2);
      imagePosECEF := imagePosECEF';
      (* Convert ECEF image position to LLA *)
      imagePosLLA := ecefToLLA imagePosECEF'
    |}
  | None => FALSE
  end.

End Decoder.

Section Projector.
Context {A : Arith} {L : Libm} {E : OrionLib}.

(** Vector from the gimbal to the image location in NED (lines 122-124). *)
Definition vectorToImage (geo : GeolocateTelemetry_t) (imagePosLLA : vec3 double) : vec3 float :=
  Vec3
    (d2f (f2d (d2f (imagePosLLA.[LAT] -d posLat (base geo))) *d datum_meanRadius))
    (d2f (f2d (d2f (imagePosLLA.[LON] -d posLon (base geo))) *d datum_meanRadius
            *d cosLat (llaTrig geo)))
    (d2f (posAlt (base geo) -d imagePosLLA.[ALT])).

(** The vector from the gimbal to the new location before it is rescaled
    (lines 135-153). *)
Definition shiftedVector (geo : GeolocateTelemetry_t) (imagePosLLA : vec3 double)
    (ydev zdev : float) : vec3 float :=
  let vectorNED := vectorToImage geo imagePosLLA in
  (* Range from gimbal to image position. *)
  let range := vector3Lengthf vectorNED in
  (* Adjust the angular deviations to be deviations in meters *)
  let ydev := tanf ydev *f range in
  let zdev := tanf zdev *f range in
  (* The vector of shifts in camera frame, Z positive down *)
  let shift := Vec3 fzero ydev (fneg zdev) in
  (* Rotate this shift from camera frame to NED (body to nav) *)
  let shift := dcmApplyRotation (cameraDcm geo) shift in
  vector3Sumf vectorNED shift.

(** [offsetImageLocation], lines 111-171. *)
Definition offsetImageLocation (geo : GeolocateTelemetry_t) (imagePosLLA : vec3 double)
    (ydev zdev : float) : result (vec3 double) :=
  (* Numerical problems at the poles *)
  if cosLat (llaTrig geo) ==d z2d 0 then FALSE
  else
    let vectorNED := vectorToImage geo imagePosLLA in
    (* Remember this value *)
    let down := vectorNED.[DOWN] in
    (* Second bail out point, down must be positive *)
    if down <=f fzero then FALSE
    else
      let vectorNED := shiftedVector geo imagePosLLA ydev zdev in
      (* Last bail out point *)
      if vectorNED.[DOWN] <=f fzero then FALSE
      else
        (* Same down component as before *)
        let vectorNED := vector3Scalef vectorNED (down /f vectorNED.[DOWN]) in
        (* Finally compute the new location *)
        TRUE (Vec3
          (addAngles (posLat (base geo)) (f2d vectorNED.[NORTH] /d datum_meanRadius))
          (addAngles (posLon (base geo))
             (f2d vectorNED.[EAST] /d (datum_meanRadius *d cosLat (llaTrig geo))))
          (posAlt (base geo) -d f2d vectorNED.[DOWN])).

End Projector.

Section Terrain.
Context {A : Arith} {E : OrionLib}.

(** Coarse and fine line of sight ray step distances, in meters *)
Definition StepCoarse : double := dlit 30 0.
Definition StepFine : double := dlit 1 0.
(** Maximum distance to follow a ray before giving up *)
Definition MaxDistance : double := dlit 15000 0.

(** The unit line of sight vector in ECEF (lines 186-201). *)
Definition lineOfSightUnit (pGeo : GeolocateTelemetry_t) : vec3 double :=
  let Temp := Vec3 (flit 1 0) (flit 0 0) (flit 0 0) in
  let Temp := dcmApplyRotation (cameraDcm pGeo) Temp in
  let UnitNED := vector3Convertf Temp in
  nedToECEFtrig UnitNED (llaTrig pGeo).

(** The point of the ray at a range, in LLA (lines 212-219). *)
Definition rayPointLLA (pGeo : GeolocateTelemetry_t) (range : double) : vec3 double :=
  let LineOfSight := vector3Scale (lineOfSightUnit pGeo) range in
  let LineOfSight := vector3Sum (posECEF pGeo) LineOfSight in
  ecefToLLA LineOfSight.

(** The loop of lines 208-252, from the test [*pRange <= End] on.  Each
    unit of fuel pays for one test of the loop condition; [None] is
    returned when the fuel is used up.  The result is the returned BOOL
    with the contents of [PosLLA] and [*pRange] at the return. *)
Fixpoint terrainLoop (fuel : nat) (pGeo : GeolocateTelemetry_t)
    (getElevationHAE : double -> double -> float)
    (Step End : double) (PosLLA : vec3 double) (range : double)
    : option (bool * vec3 double * double) :=
  match fuel with
  | O => None
  | S fuel' =>
    if range <=d End then
      let PosLLA := rayPointLLA pGeo range in
      (* Get the ground HAE *)
      let GroundHeight := f2d (getElevationHAE PosLLA.[LAT] PosLLA.[LON]) in
      (* If we're still coarsely stepping *)
      let Step :=
        if negb (Step ==d StepFine)
        then MAX StepCoarse (range *d f2d (flit 1 (-2)))
        else Step in
      (* If the end of this ray is under ground *)
      if PosLLA.[ALT] <=d GroundHeight then
        if negb (Step ==d StepFine) then
          (* Back up one step *)
          let range := range -d Step in
          (* Change to the fine step and loop until the current range *)
          let End := range +d Step in
          let Step := StepFine in
          terrainLoop fuel' pGeo getElevationHAE Step End PosLLA (range +d Step)
        else
          (* Clamp the altitude to the ground *)
          Some (true, set3 PosLLA ALT GroundHeight, range)
      else
        terrainLoop fuel' pGeo getElevationHAE Step End PosLLA (range +d Step)
    else
      (* No valid image position *)
      Some (false, PosLLA, range)
  end.

(** [getTerrainIntersection], lines 183-257.  [PosLLA] is the caller's
    array as it is on entry. *)
Definition getTerrainIntersection (fuel : nat) (pGeo : GeolocateTelemetry_t)
    (getElevationHAE : double -> double -> float) (PosLLA : vec3 double)
    : option (bool * vec3 double * double) :=
  (* Start with a step value of StepCoarse and loop until MaxDistance *)
  let Step := StepCoarse in
  let End := MaxDistance in
  terrainLoop fuel pGeo getElevationHAE Step End PosLLA Step.

(** Whether the point of the ray at a range is at or under the ground
    (the test of line 232). *)
Definition underGround (pGeo : GeolocateTelemetry_t)
    (getElevationHAE : double -> double -> float) (range : double) : bool :=
  let PosLLA := rayPointLLA pGeo range in
  PosLLA.[ALT] <=d f2d (getElevationHAE PosLLA.[LAT] PosLLA.[LON]).

(** The march of [terrainLoop] seen from outside: the step, the end and
    the range evolve by the same program text, and the ray and the terrain
    enter only through the outcome of the test of line 232. *)
Fixpoint rayMarch (fuel : nat) (under : double -> bool) (Step End range : double)
    : option (bool * double) :=
  match fuel with
  | O => None
  | S fuel' =>
    if range <=d End then
      let Step :=
        if negb (Step ==d StepFine)
        then MAX StepCoarse (range *d f2d (flit 1 (-2)))
        else Step in
      if under range then
        if negb (Step ==d StepFine) then
          let range := range -d Step in
          let End := range +d Step in
          let Step := StepFine in
          rayMarch fuel' under Step End (range +d Step)
        else Some (true, range)
      else rayMarch fuel' under Step End (range +d Step)
    else Some (false, range)
  end.

End Terrain.

(** The march in IEEE arithmetic.  [marchReturns fuel Step End range] checks,
    by running the program text of the loop on every outcome of the ground
    test, that the march started in that state returns within [fuel] tests
    of the loop condition, and that wherever it returns TRUE the range is
    within the maximum distance. *)
Fixpoint marchReturns (fuel : nat) (Step End range : @double IEEE754) : bool :=
  match fuel with
  | O => false
  | S fuel' =>
    if range <=d End then
      let Step :=
        if negb (Step ==d StepFine)
        then MAX StepCoarse (range *d f2d (flit 1 (-2)))
        else Step in
      (* the point is under ground *)
      (if negb (Step ==d StepFine) then
         let range := range -d Step in
         let End := range +d Step in
         let Step := StepFine in
         marchReturns fuel' Step End (range +d Step)
       else range <=d MaxDistance)
      (* the point is above ground *)
      && marchReturns fuel' Step End (range +d Step)
    else true
  end.

(** The ground test along a ray that is above the ground before [z] metres
    and at or under it from there on (a ray descending on flat ground). *)
Definition groundFrom (z : Z) (range : @double IEEE754) : bool :=
  @dlit IEEE754 z 0 <=d range.

Section Buffer.
Context {A : Arith}.
Variable GEOLOCATE_BUFFER_SIZE : Z.

(** [buf->geobuf[i]]; an index outside the array has no defined
    behaviour in C and gives [None]. *)
Definition geobufAt (buf : GeolocateBuffer_t) (i : Z) : option GeolocateTelemetry_t :=
  if (0 <=? i) && (i <? GEOLOCATE_BUFFER_SIZE) then geobuf buf !! Z.to_nat i else None.

(** [copyGeolocateTelemetry], lines 408-416: the struct assignment; the
    two pointer fixes make the copy's matrices refer to the copy's own
    nine values, which is what a value of [DCM_t] is here. *)
Definition copyGeolocateTelemetry (source : GeolocateTelemetry_t) : GeolocateTelemetry_t :=
  source.

(** [pushGeolocateBuffer], lines 309-324. *)
Definition pushGeolocateBuffer (buf : GeolocateBuffer_t) (geo : GeolocateTelemetry_t)
    : option GeolocateBuffer_t :=
  if (0 <=? buf_in buf) && (buf_in buf <? GEOLOCATE_BUFFER_SIZE) then
    (* Copy the data into the buffer *)
    let geobuf' := <[Z.to_nat (buf_in buf) := copyGeolocateTelemetry geo]> (geobuf buf) in
    (* Adjust in pointer *)
    let in' := buf_in buf + 1 in
    let in' := if GEOLOCATE_BUFFER_SIZE <=? in' then 0 else in' in
    (* Count number of entries *)
    let holding' :=
      if holding buf <? GEOLOCATE_BUFFER_SIZE then holding buf + 1 else holding buf in
    Some {| geobuf := geobuf'; buf_in := in'; holding := holding' |}
  else None.

(** A sequence of pushes, oldest first. *)
Fixpoint pushAll (buf : GeolocateBuffer_t) (l : list GeolocateTelemetry_t)
    : option GeolocateBuffer_t :=
  match l with
  | [] => Some buf
  | geo :: l' =>
    match pushGeolocateBuffer buf geo with
    | Some buf' => pushAll buf' l'
    | None => None
    end
  end.

(** The newest entry is one behind the in pointer (lines 341-343 and
    279-281). *)
Definition newestIndex (buf : GeolocateBuffer_t) : Z :=
  let newest := buf_in buf - 1 in
  if newest <? 0 then newest + GEOLOCATE_BUFFER_SIZE else newest.

(** The oldest entry (lines 346-348). *)
Definition oldestIndex (buf : GeolocateBuffer_t) : Z :=
  let oldest := newestIndex buf - (holding buf - 1) in
  if oldest <? 0 then oldest + GEOLOCATE_BUFFER_SIZE else oldest.

(** One step back in the array, wrapping (lines 351-353 and 392-394). *)
Definition stepBack (index : Z) : Z :=
  let index := index - 1 in
  if index <? 0 then index + GEOLOCATE_BUFFER_SIZE else index.

(** The difference in time in milliseconds (line 358). *)
Definition timeDiff (gn gi : GeolocateTelemetry_t) : Z :=
  to_int32 (systemTime (base gn) - systemTime (base gi)).

(** Inverse of time in seconds (line 365). *)
Definition inverseTime (diff : Z) : float := d2f (dlit 1000 0 /d z2d diff).

(** The rates from the two camera rotations (lines 362-385). *)
Definition ratesBetween (gi gn : GeolocateTelemetry_t) (diff : Z) : vec3 float :=
  let inversetime := inverseTime diff in
  (* Compute the change in rotation from the previous to the current *)
  let temp := matrixMultiplyTransAf (cameraDcm gi) (cameraDcm gn) in
  (* the skew symmetric delta angles *)
  let r0 := flit 5 (-1) *f (dcmGet temp I2 I1 -f dcmGet temp I1 I2) in
  let r1 := flit 5 (-1) *f (dcmGet temp I0 I2 -f dcmGet temp I2 I0) in
  let r2 := flit 5 (-1) *f (dcmGet temp I1 I0 -f dcmGet temp I0 I1) in
  (* Convert to rates by dividing by time difference in seconds. *)
  Vec3 (r0 *f inversetime) (r1 *f inversetime) (r2 *f inversetime).

(** The loop of lines 355-396, from the test [index != oldest] on.  Each
    unit of fuel pays for one test of the loop condition. *)
Fixpoint losLoop (fuel : nat) (buf : GeolocateBuffer_t) (dt : Z)
    (newest oldest index : Z) : option (result (vec3 float)) :=
  match fuel with
  | O => None
  | S fuel' =>
    if negb (index =? oldest) then
      gn ← geobufAt buf newest;
      gi ← geobufAt buf index;
      (* The difference in time in milliseconds *)
      let diff := timeDiff gn gi in
      if to_int32 dt <=? diff
      then Some (TRUE (ratesBetween gi gn diff))
      else losLoop fuel' buf dt newest oldest (stepBack index)
    else Some FALSE
  end.

(** [getLOSAngularRate], lines 333-400.  [dt] is a [uint32_t].  The loop
    is given one unit of fuel per slot of the array and one more. *)
Definition getLOSAngularRate (buf : GeolocateBuffer_t) (dt : Z)
    : option (result (vec3 float)) :=
  if holding buf <? 2 then Some FALSE
  else
    let newest := newestIndex buf in
    let oldest := oldestIndex buf in
    (* Go backwards in time until we match or exceed dt *)
    let index := stepBack newest in
    losLoop (S (Z.to_nat GEOLOCATE_BUFFER_SIZE)) buf dt newest oldest index.

(** [getImageVelocity], lines 268-301: the returned BOOL and [imageVel]. *)
Definition getImageVelocity (buf : GeolocateBuffer_t) (range : double) (dt : Z)
    : option (bool * vec3 float) :=
  r ← getLOSAngularRate buf dt;
  match r with
  | TRUE rates =>
    let radius := Vec3 (d2f range) (flit 0 0) (flit 0 0) in
    (* The index of the newest geolocate data *)
    gn ← geobufAt buf (newestIndex buf);
    (* Use the rates to compute a velocity, omega cross r *)
    let vel := vector3Crossf rates radius in
    (* vel is the velocity in camera reference frame, rotate to the NED frame *)
    let imageVel := dcmApplyRotation (cameraDcm gn) vel in
    (* And add in the velocity of the gimbal *)
    let imageVel := vector3Sumf imageVel (velNED (base gn)) in
    Some (true, imageVel)
  | FALSE => Some (false, vector3Setf (flit 0 0))
  end.

(** The state the pushes maintain. *)
Definition buffer_wf (buf : GeolocateBuffer_t) : Prop :=
  Z.of_nat (length (geobuf buf)) = GEOLOCATE_BUFFER_SIZE
  /\ 0 <= buf_in buf < GEOLOCATE_BUFFER_SIZE
  /\ 0 <= holding buf <= GEOLOCATE_BUFFER_SIZE.

End Buffer.

(** ** Concrete records *)

Section Samples.
Context {A : Arith}.

Definition identityDcm : DCM_t :=
  Vec3 (Vec3 fone fzero fzero) (Vec3 fzero fone fzero) (Vec3 fzero fzero fone).

Definition identityQuat : quat := Quat fone fzero fzero fzero.

Definition zeroVecf : vec3 float := Vec3 fzero fzero fzero.
Definition zeroVecd : vec3 double := Vec3 (dlit 0 0) (dlit 0 0) (dlit 0 0).

(** A zero-initialised core record. *)
Definition zeroCore : GeolocateTelemetryCore_t := {|
  systemTime := 0; gpsITOW := 0; gpsWeek := 0; leapSeconds := 0;
  posLat := dlit 0 0; posLon := dlit 0 0; posAlt := dlit 0 0;
  velNED := zeroVecf; gimbalQuat := Quat fzero fzero fzero fzero;
  pan := fzero; tilt := fzero; outputShifts := (fzero, fzero);
  losECEF := zeroVecf |}.

(** A record with a given time stamp, camera rotation and platform
    velocity, everything else zero. *)
Definition sample (t : Z) (dcm : DCM_t) (vel : vec3 float) : GeolocateTelemetry_t := {|
  base := {|
    systemTime := t; gpsITOW := 0; gpsWeek := 0; leapSeconds := 0;
    posLat := dlit 0 0; posLon := dlit 0 0; posAlt := dlit 0 0;
    velNED := vel; gimbalQuat := identityQuat;
    pan := fzero; tilt := fzero; outputShifts := (fzero, fzero);
    losECEF := zeroVecf |};
  Year := 0; Month := 0; Day := 0; Hour := 0; Minute := 0; Second := 0;
  llaTrig := {| sinLat := dlit 0 0; cosLat := dlit 1 0; sinLon := dlit 0 0; cosLon := dlit 1 0 |};
  posECEF := zeroVecd; velECEF := zeroVecf;
  gimbalDcm := identityDcm; cameraDcm := dcm;
  gimbalEuler := zeroVecf; cameraEuler := zeroVecf;
  cameraQuat := identityQuat; slantRange := fzero;
  imagePosECEF := zeroVecd; imagePosLLA := zeroVecd |}.

(** A record of a camera at a given altitude over the origin of
    [FlatEarth] (below), looking straight down: the camera's forward axis
    is the down axis of the navigation frame. *)
Definition lookingDown (alt : Z) : GeolocateTelemetry_t := {|
  base := zeroCore;
  Year := 0; Month := 0; Day := 0; Hour := 0; Minute := 0; Second := 0;
  llaTrig := {| sinLat := dlit 0 0; cosLat := dlit 1 0; sinLon := dlit 0 0; cosLon := dlit 1 0 |};
  posECEF := Vec3 (dlit 0 0) (dlit 0 0) (dlit alt 0); velECEF := zeroVecf;
  gimbalDcm := identityDcm;
  cameraDcm := Vec3 (Vec3 fzero fzero (fneg fone)) (Vec3 fzero fone fzero) (Vec3 fone fzero fzero);
  gimbalEuler := zeroVecf; cameraEuler := zeroVecf;
  cameraQuat := identityQuat; slantRange := fzero;
  imagePosECEF := zeroVecd; imagePosLLA := zeroVecd |}.

(** A buffer of the given size before the first push. *)
Definition emptyBuffer (size : nat) : GeolocateBuffer_t :=
  {| geobuf := replicate size (sample 0 identityDcm zeroVecf); buf_in := 0; holding := 0 |}.

End Samples.

(** A core record with the identity attitude, pan 0, a given tilt and a
    given pan output shift, everything else zero. *)
Definition corePacket {A : Arith} (tilt0 shiftPan : float) : GeolocateTelemetryCore_t := {|
  systemTime := 0; gpsITOW := 0; gpsWeek := 0; leapSeconds := 0;
  posLat := dlit 0 0; posLon := dlit 0 0; posAlt := dlit 0 0;
  velNED := zeroVecf; gimbalQuat := identityQuat;
  pan := fzero; tilt := tilt0; outputShifts := (shiftPan, fzero);
  losECEF := zeroVecf |}.

(** The small-angle trigonometric functions, for runs in IEEE arithmetic at
    angles where they are exact (the angle 0). *)
Definition SmallAngle : @Libm IEEE754 :=
  @Build_Libm IEEE754 (fun x => x) (fun _ => IEEE.lit 24 128 1 0) (fun x => x).

(** ** A stand-in for the rest of the SDK

    To run the code on concrete inputs the external routines have to be
    something.  [FlatEarth] is the simplest earth: the ECEF frame is the
    local north, east, up frame, a position in LLA is that same triple, a
    packet is the core record itself.  The properties below are proved for
    every [OrionLib]; [FlatEarth] only shows that their hypotheses can be
    met. *)
Definition FlatEarth {A : Arith} : OrionLib := {|
  OrionPkt_t := GeolocateTelemetryCore_t;
  encodeGeolocateTelemetryCorePacketStructure := fun b => b;
  decodeGeolocateTelemetryCorePacketStructure := fun p => Some p;
  computeDateAndTimeFromWeekAndItow := fun _ _ _ => (1980, 1, 6, 0, 0, 0);
  llaToECEFandTrig := fun lla =>
    (lla, {| sinLat := dlit 0 0; cosLat := dlit 1 0; sinLon := dlit 0 0; cosLon := dlit 1 0 |});
  nedToECEFtrigf := fun v _ => Vec3 (c0 v) (c1 v) (fneg (c2 v));
  nedToECEFtrig := fun v _ => Vec3 (c0 v) (c1 v) (dlit 0 0 -d c2 v);
  ecefToLLA := fun p => p;
  dcmRoll := fun _ => fzero;
  dcmPitch := fun _ => fzero;
  dcmYaw := fun _ => fzero;
  dcmToQuaternion := fun _ => identityQuat;
  datum_meanRadius := dlit 63710087714 (-4)
|}.

(** ** Vocabulary for the properties of the buffer and of the march *)

Section SearchVocabulary.
Context {A : Arith}.
Variable GEOLOCATE_BUFFER_SIZE : Z.

(** The slot [j] entries behind the newest one. *)
Definition slotBack (buf : GeolocateBuffer_t) (j : Z) : Z :=
  (newestIndex GEOLOCATE_BUFFER_SIZE buf - j) mod GEOLOCATE_BUFFER_SIZE.

(** The test of line 360 on the entry [j] behind the newest one: whether it
    is at least [dt] older than the newest entry. *)
Definition passesAt (buf : GeolocateBuffer_t) (dt : Z) (j : Z) : option bool :=
  gn ← geobufAt GEOLOCATE_BUFFER_SIZE buf (newestIndex GEOLOCATE_BUFFER_SIZE buf);
  gi ← geobufAt GEOLOCATE_BUFFER_SIZE buf (slotBack buf j);
  Some (to_int32 dt <=? timeDiff gn gi).

End SearchVocabulary.

(** The ranges the march examines for as long as every examined point is
    above the ground: the program text of the loop with the ground test
    answered "above". *)
Fixpoint examinedAbove {A : Arith} (fuel : nat) (Step End range : double) : list double :=
  match fuel with
  | O => []
  | S fuel' =>
    if range <=d End then
      let Step :=
        if negb (Step ==d StepFine)
        then MAX StepCoarse (range *d f2d (flit 1 (-2)))
        else Step in
      range :: examinedAbove fuel' Step End (range +d Step)
    else []
  end.



(** Two IEEE values that are the same datum. *)
Definition sf_same (x y : spec_float) : bool :=
  match x, y with
  | S754_zero a, S754_zero b => Bool.eqb a b
  | S754_infinity a, S754_infinity b => Bool.eqb a b
  | S754_nan, S754_nan => true
  | S754_finite s m e, S754_finite s' m' e' => Bool.eqb s s' && Pos.eqb m m' && Z.eqb e e'
  | _, _ => false
  end.

(** The fine march from [range] meets the range [target] exactly, within
    its window from [low] to [End], never having passed it. *)
Fixpoint fineReaches (fuel : nat) (low End range target : @double IEEE754) : bool :=
  match fuel with
  | O => false
  | S fuel' =>
    if (range <=d End) && (low <d range) && (range <=d target) then
      if sf_same range target then true
      else fineReaches fuel' low End (range +d StepFine) target
    else false
  end.

(** At each of [k] successive coarse samples of the march from [range] on:
    the sample is at [30 j] metres (then [30 (j + 1)], and so on), the step
    there is still coarse, backing up one step gives the sample before, and
    the fine march from there steps exactly onto the sample again. *)
Fixpoint coarseFinds (k fuel : nat) (j : Z) (Step End range : @double IEEE754) : bool :=
  match k with
  | O => true
  | S k' =>
    match fuel with
    | O => false
    | S fuel' =>
      let Step' := MAX StepCoarse (range *d f2d (flit 1 (-2))) in
      let back := range -d Step' in
      if sf_same range (@dlit IEEE754 (30 * j) 0)
         && sf_same back (@dlit IEEE754 (30 * (j - 1)) 0)
         && (range <=d End) && negb (Step ==d StepFine) && negb (Step' ==d StepFine)
      then
        if fineReaches fuel' back (back +d Step') (back +d StepFine) range
        then coarseFinds k' fuel' (j + 1) Step' End (range +d Step')
        else false
      else false
    end
  end.

(** * Properties *)

(** ** The history buffer *)

Section BufferFacts.
Context {A : Arith}.
Variable N : Z.

Lemma geobufAt_lookup (buf : GeolocateBuffer_t) (i : Z) :
  0 <= i < N -> geobufAt N buf i = geobuf buf !! Z.to_nat i.
Proof.
  intros Hi. unfold geobufAt.
  destruct (Z.leb_spec 0 i); [|lia].
  destruct (Z.ltb_spec i N); [reflexivity|lia].
Qed.

Lemma newestIndex_range (buf : GeolocateBuffer_t) :
  0 <= buf_in buf < N -> 0 <= newestIndex N buf < N.
Proof.
  intros Hin. unfold newestIndex.
  destruct (Z.ltb_spec (buf_in buf - 1) 0); lia.
Qed.

(** One push from a well-formed state, in closed form. *)
Lemma push_eq (buf : GeolocateBuffer_t) (geo : GeolocateTelemetry_t) :
  0 <= buf_in buf < N -> 0 <= holding buf <= N ->
  pushGeolocateBuffer N buf geo =
  Some {| geobuf := <[Z.to_nat (buf_in buf) := geo]> (geobuf buf);
          buf_in := (buf_in buf + 1) mod N;
          holding := Z.min N (holding buf + 1) |}.
Proof.
  intros Hin Hhold. unfold pushGeolocateBuffer, copyGeolocateTelemetry.
  destruct (Z.leb_spec 0 (buf_in buf)); [|lia].
  destruct (Z.ltb_spec (buf_in buf) N); [|lia].
  cbn [andb]. do 2 f_equal.
  - destruct (Z.leb_spec N (buf_in buf + 1)).
    + replace (buf_in buf + 1) with N by lia. now rewrite Z.mod_same by lia.
    + now rewrite Z.mod_small by lia.
  - destruct (Z.ltb_spec (holding buf) N); lia.
Qed.

(** One push from a well-formed state. *)
Lemma push_spec (buf : GeolocateBuffer_t) (geo : GeolocateTelemetry_t) :
  buffer_wf N buf ->
  exists buf',
    pushGeolocateBuffer N buf geo = Some buf'
    /\ buffer_wf N buf'
    /\ buf_in buf' = (buf_in buf + 1) mod N
    /\ holding buf' = Z.min N (holding buf + 1)
    /\ geobufAt N buf' (newestIndex N buf') = Some geo.
Proof.
  intros (Hlen & Hin & Hhold).
  unfold pushGeolocateBuffer.
  destruct (Z.leb_spec 0 (buf_in buf)); [|lia].
  destruct (Z.ltb_spec (buf_in buf) N); [|lia].
  cbn [andb]. eexists. split; [reflexivity|].
  assert (Hnew : (if N <=? buf_in buf + 1 then 0 else buf_in buf + 1)
                 = (buf_in buf + 1) mod N).
  { destruct (Z.leb_spec N (buf_in buf + 1)).
    - replace (buf_in buf + 1) with N by lia. now rewrite Z.mod_same by lia.
    - now rewrite Z.mod_small by lia. }
  repeat split; cbn [geobuf buf_in holding].
  - now rewrite length_insert.
  - destruct (Z.leb_spec N (buf_in buf + 1)); lia.
  - destruct (Z.leb_spec N (buf_in buf + 1)); lia.
  - destruct (Z.ltb_spec (holding buf) N); lia.
  - destruct (Z.ltb_spec (holding buf) N); lia.
  - exact Hnew.
  - destruct (Z.ltb_spec (holding buf) N); lia.
  - assert (Hidx : newestIndex N
              {| geobuf := <[Z.to_nat (buf_in buf):=copyGeolocateTelemetry geo]> (geobuf buf);
                 buf_in := if N <=? buf_in buf + 1 then 0 else buf_in buf + 1;
                 holding := if holding buf <? N then holding buf + 1 else holding buf |}
              = buf_in buf).
    { unfold newestIndex; cbn [buf_in].
      destruct (Z.leb_spec N (buf_in buf + 1)).
      - destruct (Z.ltb_spec (0 - 1) 0); lia.
      - destruct (Z.ltb_spec (buf_in buf + 1 - 1) 0); lia. }
    rewrite Hidx, geobufAt_lookup by lia. cbn [geobuf].
    apply list_lookup_insert_eq. lia.
Qed.

(** A sequence of pushes from a well-formed state. *)
Lemma pushAll_spec (l : list GeolocateTelemetry_t) :
  forall buf : GeolocateBuffer_t,
  buffer_wf N buf ->
  exists buf',
    pushAll N buf l = Some buf'
    /\ buffer_wf N buf'
    /\ buf_in buf' = (buf_in buf + Z.of_nat (length l)) mod N
    /\ holding buf' = Z.min N (holding buf + Z.of_nat (length l))
    /\ (forall geo, last l = Some geo ->
        geobufAt N buf' (newestIndex N buf') = Some geo).
Proof.
  induction l as [|geo l IH]; intros buf Hwf.
  - exists buf. cbn [pushAll length]. destruct Hwf as (Hlen & Hin & Hhold).
    repeat split; try lia.
    + rewrite Z.add_0_r, Z.mod_small; lia.
    + intros g Hg. discriminate Hg.
  - destruct (push_spec buf geo Hwf) as (b1 & Hpush & Hwf1 & Hin1 & Hh1 & Hnew1).
    destruct (IH b1 Hwf1) as (b2 & Hall & Hwf2 & Hin2 & Hh2 & Hnew2).
    exists b2. cbn [pushAll]. rewrite Hpush.
    destruct Hwf as (Hlen & Hin & Hhold).
    split; [exact Hall|]. split; [exact Hwf2|].
    split; [|split].
    + rewrite Hin2, Hin1, Zplus_mod_idemp_l. f_equal.
      rewrite length_cons. lia.
    + rewrite Hh2, Hh1, length_cons. lia.
    + intros g Hg. destruct l as [|g' l'].
      * cbn in Hg. injection Hg as <-. cbn [pushAll] in Hall.
        injection Hall as <-. exact Hnew1.
      * apply Hnew2. exact Hg.
Qed.

End BufferFacts.

(** C5. Pushing capacity + k records (any k) into a well-formed buffer is
    defined; afterwards exactly capacity entries are held, the write cursor
    has wrapped at the capacity, and the newest-entry lookup (one slot
    behind the write cursor) gives the record pushed last. *)
Theorem C5_push_saturates_and_newest_is_last
    {A : Arith} (N : Z) (k : nat) (buf : GeolocateBuffer_t)
    (l : list GeolocateTelemetry_t) :
  buffer_wf N buf ->
  Z.of_nat (length l) = N + Z.of_nat k ->
  exists buf' geo,
    pushAll N buf l = Some buf'
    /\ holding buf' = N
    /\ buf_in buf' = (buf_in buf + N + Z.of_nat k) mod N
    /\ 0 <= buf_in buf' < N
    /\ last l = Some geo
    /\ geobufAt N buf' (newestIndex N buf') = Some geo.
Proof.
  intros Hwf Hlen.
  destruct (pushAll_spec N l buf Hwf) as (b & Hall & Hwf' & Hin & Hh & Hnew).
  assert (HN : 0 < N) by (destruct Hwf as (_ & ? & _); lia).
  destruct (last l) as [geo|] eqn:Hlast.
  - exists b, geo. destruct Hwf as (_ & _ & Hhold).
    destruct Hwf' as (_ & Hin' & _).
    repeat split; try assumption; try lia.
    + rewrite Hin, Hlen. f_equal. lia.
    + now apply Hnew.
  - apply last_None in Hlast. subst l. cbn in Hlen. lia.
Qed.

Lemma C5_push_saturates_witness :
  let buf := emptyBuffer (A:=IEEE754) 3 in
  let l := [sample 10 identityDcm zeroVecf; sample 20 identityDcm zeroVecf;
            sample 30 identityDcm zeroVecf; sample 40 identityDcm zeroVecf] in
  buffer_wf 3 buf
  /\ Z.of_nat (length l) = 3 + Z.of_nat 1
  /\ exists buf' geo,
       pushAll 3 buf l = Some buf'
       /\ holding buf' = 3
       /\ buf_in buf' = (buf_in buf + 3 + Z.of_nat 1) mod 3
       /\ 0 <= buf_in buf' < 3
       /\ last l = Some geo
       /\ geobufAt 3 buf' (newestIndex 3 buf') = Some geo.
Proof.
  intros buf l.
  assert (Hwf : buffer_wf 3 buf) by (repeat split; cbn; lia).
  assert (Hlen : Z.of_nat (length l) = 3 + Z.of_nat 1) by reflexivity.
  split; [exact Hwf|]. split; [exact Hlen|].
  exact (C5_push_saturates_and_newest_is_last 3 1 buf l Hwf Hlen).
Defined.

(** ** The angular rate query *)

Section RateFacts.
Context {A : Arith}.
Variable N : Z.

Lemma emptyBuffer_wf (size : nat) :
  0 < Z.of_nat size -> buffer_wf (Z.of_nat size) (emptyBuffer size).
Proof.
  intros Hs. unfold buffer_wf, emptyBuffer; cbn [geobuf buf_in holding].
  rewrite length_replicate. lia.
Qed.

(** With fewer than two entries the query fails. *)
Lemma getLOSAngularRate_short (buf : GeolocateBuffer_t) (dt : Z) :
  holding buf < 2 -> getLOSAngularRate N buf dt = Some FALSE.
Proof.
  intros Hh. unfold getLOSAngularRate.
  destruct (Z.ltb_spec (holding buf) 2); [reflexivity|lia].
Qed.

(** With exactly two entries the search starts on the oldest entry, which
    ends the loop before anything is examined. *)
Lemma getLOSAngularRate_two (buf : GeolocateBuffer_t) (dt : Z) :
  holding buf = 2 -> getLOSAngularRate N buf dt = Some FALSE.
Proof.
  intros Hh. unfold getLOSAngularRate.
  destruct (Z.ltb_spec (holding buf) 2); [reflexivity|].
  assert (Heq : stepBack N (newestIndex N buf) = oldestIndex N buf).
  { unfold stepBack, oldestIndex. rewrite Hh. reflexivity. }
  rewrite Heq. cbn [losLoop]. now rewrite Z.eqb_refl.
Qed.

(** The loop never runs out of fuel on a well-formed buffer: walking back
    from any slot, the oldest slot is met within [N] steps. *)
Lemma losLoop_defined (buf : GeolocateBuffer_t) (dt newest oldest : Z) :
  Z.of_nat (length (geobuf buf)) = N ->
  0 <= newest < N -> 0 <= oldest < N ->
  forall (fuel : nat) (index : Z),
  0 <= index < N ->
  (index - oldest) mod N < Z.of_nat fuel ->
  exists r, losLoop N fuel buf dt newest oldest index = Some r.
Proof.
  intros Hlen Hnew Hold fuel.
  induction fuel as [|fuel IH]; intros index Hidx Hdist.
  - pose proof (Z.mod_pos_bound (index - oldest) N). lia.
  - cbn [losLoop]. destruct (Z.eqb_spec index oldest) as [->|Hne]; cbn [negb].
    + eexists; reflexivity.
    + rewrite !geobufAt_lookup by lia.
      destruct (lookup_lt_is_Some_2 (geobuf buf) (Z.to_nat newest)) as [gn ->]; [lia|].
      destruct (lookup_lt_is_Some_2 (geobuf buf) (Z.to_nat index)) as [gi ->]; [lia|].
      cbn. destruct (to_int32 dt <=? timeDiff gn gi); [eexists; reflexivity|].
      apply IH.
      * unfold stepBack. destruct (Z.ltb_spec (index - 1) 0); lia.
      * assert (Hpos : 0 < (index - oldest) mod N).
        { pose proof (Z.mod_pos_bound (index - oldest) N).
          destruct (Z.eq_dec ((index - oldest) mod N) 0) as [H0|]; [|lia].
          exfalso. apply Hne.
          apply Z.mod_divide in H0; [|lia]. destruct H0 as [q Hq].
          assert (q = 0) by nia. lia. }
        assert (Hbnd : 0 <= (index - oldest) mod N < N) by (apply Z.mod_pos_bound; lia).
        assert (Hstep : (stepBack N index - oldest) mod N = (index - oldest) mod N - 1).
        { unfold stepBack. destruct (Z.ltb_spec (index - 1) 0).
          - replace (index - 1 + N - oldest) with (index - oldest - 1 + 1 * N) by lia.
            rewrite Z.mod_add by lia.
            rewrite <- (Z.mod_small ((index - oldest) mod N - 1) N) by lia.
            rewrite Zminus_mod_idemp_l. reflexivity.
          - replace (index - 1 - oldest) with (index - oldest - 1) by lia.
            rewrite <- (Z.mod_small ((index - oldest) mod N - 1) N) by lia.
            rewrite Zminus_mod_idemp_l. reflexivity. }
        lia.
Qed.

(** Rates that are returned were computed from the newest entry and an
    older one that passed the test on the time difference. *)
Lemma losLoop_true (buf : GeolocateBuffer_t) (dt newest oldest : Z) (rates : vec3 float) :
  forall (fuel : nat) (index : Z),
  losLoop N fuel buf dt newest oldest index = Some (TRUE rates) ->
  exists gn gi,
    geobufAt N buf newest = Some gn
    /\ (to_int32 dt <=? timeDiff gn gi) = true
    /\ rates = ratesBetween gi gn (timeDiff gn gi).
Proof.
  induction fuel as [|fuel IH]; intros index; [discriminate|].
  cbn [losLoop]. destruct (negb (index =? oldest)); [|discriminate].
  destruct (geobufAt N buf newest) as [gn|]; [|discriminate].
  destruct (geobufAt N buf index) as [gi|]; [|discriminate].
  cbn. destruct (to_int32 dt <=? timeDiff gn gi) eqn:Hdiff.
  - intros [= <-]. exists gn, gi. auto.
  - apply IH.
Qed.

Lemma getLOSAngularRate_true (buf : GeolocateBuffer_t) (dt : Z) (rates : vec3 float) :
  getLOSAngularRate N buf dt = Some (TRUE rates) ->
  exists gn gi,
    geobufAt N buf (newestIndex N buf) = Some gn
    /\ (to_int32 dt <=? timeDiff gn gi) = true
    /\ rates = ratesBetween gi gn (timeDiff gn gi).
Proof.
  unfold getLOSAngularRate. destruct (holding buf <? 2); [discriminate|].
  apply losLoop_true.
Qed.

(** On a well-formed buffer the query returns. *)
Lemma getLOSAngularRate_defined (buf : GeolocateBuffer_t) (dt : Z) :
  buffer_wf N buf -> exists r, getLOSAngularRate N buf dt = Some r.
Proof.
  intros (Hlen & Hin & Hhold). unfold getLOSAngularRate.
  destruct (Z.ltb_spec (holding buf) 2); [eexists; reflexivity|].
  pose proof (newestIndex_range N buf Hin) as Hnew.
  assert (Hold : 0 <= oldestIndex N buf < N).
  { unfold oldestIndex. destruct (Z.ltb_spec (newestIndex N buf - (holding buf - 1)) 0); lia. }
  assert (Hidx : 0 <= stepBack N (newestIndex N buf) < N).
  { unfold stepBack. destruct (Z.ltb_spec (newestIndex N buf - 1) 0); lia. }
  apply losLoop_defined; try assumption.
  pose proof (Z.mod_pos_bound (stepBack N (newestIndex N buf) - oldestIndex N buf) N).
  lia.
Qed.

End RateFacts.

(** C1 (the code departs from the claim). After exactly two pushes into an
    empty buffer of any capacity of two or more, the angular rate query
    returns FALSE whatever the two records and the requested interval are:
    the search starts on the oldest entry and the loop [while (index !=
    oldest)] ends before examining it. *)
Theorem C1_two_pushes_never_yield_a_rate
    {A : Arith} (k : nat) (old new : GeolocateTelemetry_t) (dt : Z) :
  let N := Z.of_nat (2 + k) in
  exists buf,
    pushAll N (emptyBuffer (2 + k)) [old; new] = Some buf
    /\ holding buf = 2
    /\ geobufAt N buf (newestIndex N buf) = Some new
    /\ geobufAt N buf (oldestIndex N buf) = Some old
    /\ getLOSAngularRate N buf dt = Some FALSE.
Proof.
  intros N.
  assert (Hwf : buffer_wf N (emptyBuffer (2 + k))) by (apply emptyBuffer_wf; lia).
  assert (HN : 2 <= N) by (unfold N; lia).
  clearbody N.
  destruct (pushAll_spec N [old; new] _ Hwf) as (buf & Hall & Hwf' & Hin & Hh & Hnew).
  unfold emptyBuffer in Hin, Hh, Hall. cbn [holding buf_in length] in Hin, Hh.
  assert (Hh2 : holding buf = 2) by lia.
  exists buf. repeat split; try assumption.
  - now apply Hnew.
  - cbn [pushAll] in Hall.
    rewrite push_eq in Hall by (cbn [buf_in holding]; lia).
    cbn [buf_in holding geobuf] in Hall.
    rewrite (Z.mod_small (0 + 1) N) in Hall by lia.
    rewrite push_eq in Hall by (cbn [buf_in holding]; lia).
    injection Hall as <-.
    cbn [buf_in holding geobuf].
    unfold oldestIndex, newestIndex; cbn [buf_in holding].
    replace (Z.min N (Z.min N (0 + 1) + 1)) with 2 by lia.
    destruct (Z.eq_dec N 2) as [HN2|HN2].
    + rewrite HN2. reflexivity.
    + rewrite (Z.mod_small (0 + 1 + 1) N) by lia.
      match goal with |- geobufAt N _ ?i = _ => change i with 0 end.
      rewrite geobufAt_lookup by lia. reflexivity.
  - now apply getLOSAngularRate_two.
Qed.

(** ** Rates and image velocity in IEEE arithmetic *)

Section IEEEFacts.
Import IEEE.
Existing Instance IEEE754.

Lemma is_zero_finite (x : spec_float) : is_zero x = true -> is_finite x = true.
Proof. now destruct x. Qed.

Lemma mul32_zero_l (x y : spec_float) :
  is_zero x = true -> is_finite y = true -> is_zero (SFmul 24 128 x y) = true.
Proof. now destruct x, y. Qed.

Lemma mul32_zero_r (x y : spec_float) :
  is_finite x = true -> is_zero y = true -> is_zero (SFmul 24 128 x y) = true.
Proof. now destruct x, y. Qed.

Lemma add32_zero (x y : spec_float) :
  is_zero x = true -> is_zero y = true -> is_zero (SFadd 24 128 x y) = true.
Proof. destruct x as [[]| | |], y as [[]| | |]; now intros. Qed.

Lemma sub32_zero (x y : spec_float) :
  is_zero x = true -> is_zero y = true -> is_zero (SFsub 24 128 x y) = true.
Proof. destruct x as [[]| | |], y as [[]| | |]; now intros. Qed.

Lemma all3_elim (P : spec_float -> bool) (v : vec3 spec_float) :
  all3 P v = true -> P (c0 v) = true /\ P (c1 v) = true /\ P (c2 v) = true.
Proof.
  unfold all3. intros H. apply andb_prop in H as [H H2].
  apply andb_prop in H as [H0 H1]. auto.
Qed.

(** A result that is a number was computed from numbers. *)
Lemma mul32_finite_inv (x y : spec_float) :
  is_finite (SFmul 24 128 x y) = true -> is_finite x = true /\ is_finite y = true.
Proof. destruct x, y; cbn; intros H; try discriminate H; auto. Qed.

Lemma add32_finite_inv (x y : spec_float) :
  is_finite (SFadd 24 128 x y) = true -> is_finite x = true /\ is_finite y = true.
Proof.
  destruct x as [| [] | |], y as [| [] | |]; cbn; intros H; try discriminate H; auto.
Qed.

Lemma sub32_finite_inv (x y : spec_float) :
  is_finite (SFsub 24 128 x y) = true -> is_finite x = true /\ is_finite y = true.
Proof.
  destruct x as [| [] | |], y as [| [] | |]; cbn; intros H; try discriminate H; auto.
Qed.

Lemma dot3_finite_inv (a b : vec3 spec_float) :
  is_finite (dot3 a b) = true -> all3 is_finite a = true /\ all3 is_finite b = true.
Proof.
  unfold dot3. cbn [fadd fmul IEEE754].
  intros [[H0 H1]%add32_finite_inv H2]%add32_finite_inv.
  apply mul32_finite_inv in H0 as [A0 B0].
  apply mul32_finite_inv in H1 as [A1 B1].
  apply mul32_finite_inv in H2 as [A2 B2].
  unfold all3. split; repeat (apply andb_true_intro; split); assumption.
Qed.

(** Rates that are zero were computed from rotation matrices of numbers. *)
Lemma ratesBetween_zero_finite (gi gn : GeolocateTelemetry_t) (diff : Z) :
  all3 is_zero (ratesBetween gi gn diff) = true ->
  all3 is_finite (c0 (cameraDcm gn)) = true
  /\ all3 is_finite (c1 (cameraDcm gn)) = true
  /\ all3 is_finite (c2 (cameraDcm gn)) = true.
Proof.
  intros (Z0 & Z1 & _)%all3_elim.
  unfold ratesBetween in Z0, Z1. cbn [c0 c1 c2 fmul fsub IEEE754] in Z0, Z1.
  apply is_zero_finite, mul32_finite_inv in Z0 as [Z0 _].
  apply mul32_finite_inv in Z0 as [_ Z0].
  apply sub32_finite_inv in Z0 as [M21 M12].
  apply is_zero_finite, mul32_finite_inv in Z1 as [Z1 _].
  apply mul32_finite_inv in Z1 as [_ Z1].
  apply sub32_finite_inv in Z1 as [_ M20].
  unfold dcmGet, matrixMultiplyTransAf in M21, M12, M20. cbn [at3 c0 c1 c2] in M21, M12, M20.
  apply dot3_finite_inv in M21 as [_ (A0 & A1 & A2)%all3_elim].
  apply dot3_finite_inv in M12 as [_ (B0 & B1 & B2)%all3_elim].
  apply dot3_finite_inv in M20 as [_ (C0 & C1 & C2)%all3_elim].
  unfold column, dcmGet in *. cbn [at3 c0 c1 c2] in *.
  unfold all3. repeat split; repeat (apply andb_true_intro; split); assumption.
Qed.

(** A product with an infinity is an infinity or a NaN. *)
Lemma mul32_infinity (x : spec_float) (s : bool) :
  is_finite (SFmul 24 128 x (S754_infinity s)) = false.
Proof. now destruct x. Qed.

(** The rotation of a zero vector by a matrix of numbers is zero. *)
Lemma dot3_zero (r v : vec3 spec_float) :
  all3 is_finite r = true -> all3 is_zero v = true ->
  is_zero (dot3 r v) = true.
Proof.
  intros (R0 & R1 & R2)%all3_elim (V0 & V1 & V2)%all3_elim.
  unfold dot3. cbn [fadd fmul IEEE754].
  repeat apply add32_zero; now apply mul32_zero_r.
Qed.

Lemma dcmApplyRotation_zero (M : DCM_t) (v : vec3 spec_float) :
  all3 is_finite (c0 M) = true -> all3 is_finite (c1 M) = true ->
  all3 is_finite (c2 M) = true -> all3 is_zero v = true ->
  all3 is_zero (dcmApplyRotation M v) = true.
Proof.
  intros H0 H1 H2 Hv. unfold dcmApplyRotation, all3 at 1. cbn [c0 c1 c2].
  now rewrite !dot3_zero.
Qed.

(** Zero rates give a zero tangential velocity at any range that is a
    number. *)
Lemma cross_zero (rates : vec3 spec_float) (range : spec_float) :
  all3 is_zero rates = true -> is_finite range = true ->
  all3 is_zero (vector3Crossf rates (Vec3 range (flit 0 0) (flit 0 0))) = true.
Proof.
  intros (R0 & R1 & R2)%all3_elim Hr.
  unfold vector3Crossf, all3. cbn [c0 c1 c2 fsub fmul IEEE754].
  rewrite !sub32_zero; try reflexivity; now apply mul32_zero_l.
Qed.

Lemma sum_zero (a b : vec3 spec_float) :
  all3 is_zero a = true -> all3 is_zero b = true ->
  all3 is_zero (vector3Sumf a b) = true.
Proof.
  intros (A0 & A1 & A2)%all3_elim (B0 & B1 & B2)%all3_elim.
  unfold vector3Sumf, all3. cbn [c0 c1 c2 fadd IEEE754].
  now rewrite !add32_zero.
Qed.







End IEEEFacts.


(** C8. In IEEE arithmetic, for a range that is a number in single
    precision: when the angular rate query succeeds with zero rates and the
    newest entry's platform velocity is zero, the image velocity query
    returns TRUE with exactly a zero vector; when the angular rate query
    fails, it returns FALSE with the zero vector.  Only the returned flag
    tells the two apart. *)
Theorem C8_image_velocity_zero_cases
    (N : Z) (buf : @GeolocateBuffer_t IEEE754) (range : @double IEEE754) (dt : Z) :
  (forall rates gn,
      getLOSAngularRate N buf dt = Some (TRUE rates) ->
      geobufAt N buf (newestIndex N buf) = Some gn ->
      IEEE.all3 IEEE.is_zero rates = true ->
      IEEE.all3 IEEE.is_zero (velNED (base gn)) = true ->
      IEEE.is_finite (d2f range) = true ->
      exists v, getImageVelocity N buf range dt = Some (true, v)
                /\ IEEE.all3 IEEE.is_zero v = true)
  /\ (getLOSAngularRate N buf dt = Some FALSE ->
      getImageVelocity N buf range dt
      = Some (false, Vec3 (S754_zero false) (S754_zero false) (S754_zero false))).
Proof.
  split.
  - intros rates gn Hrate Hgn Hz Hvel Hr.
    destruct (getLOSAngularRate_true N buf dt rates Hrate) as (gn' & gi & Hgn' & _ & Hrates).
    rewrite Hgn in Hgn'. injection Hgn' as <-.
    rewrite Hrates in Hz.
    destruct (ratesBetween_zero_finite gi gn _ Hz) as (H0 & H1 & H2).
    rewrite <- Hrates in Hz.
    unfold getImageVelocity. rewrite Hrate. cbn. rewrite Hgn. cbn.
    eexists. split; [reflexivity|].
    apply sum_zero; [|assumption].
    apply dcmApplyRotation_zero; try assumption.
    now apply cross_zero.
  - intros Hrate. unfold getImageVelocity. rewrite Hrate. reflexivity.
Qed.

Lemma C8_image_velocity_zero_cases_witness :
  let s t := sample (A:=IEEE754) t identityDcm zeroVecf in
  let full := {| geobuf := [s 0; s 500; s 1000]; buf_in := 0; holding := 3 |} in
  let short := {| geobuf := [s 0; s 0; s 0]; buf_in := 1; holding := 1 |} in
  let range := dlit (Arith:=IEEE754) 100 0 in
  (getLOSAngularRate 3 full 500 = Some (TRUE zeroVecf)
   /\ geobufAt 3 full (newestIndex 3 full) = Some (s 1000)
   /\ exists v, getImageVelocity 3 full range 500 = Some (true, v)
                /\ IEEE.all3 IEEE.is_zero v = true)
  /\ (getLOSAngularRate 3 short 500 = Some FALSE
      /\ getImageVelocity 3 short range 500
         = Some (false, Vec3 (S754_zero false) (S754_zero false) (S754_zero false))).
Proof.
  intros s full short range.
  assert (Hrate : getLOSAngularRate 3 full 500 = Some (TRUE zeroVecf)) by reflexivity.
  assert (Hgn : geobufAt 3 full (newestIndex 3 full) = Some (s 1000)) by reflexivity.
  assert (Hshort : getLOSAngularRate 3 short 500 = Some FALSE) by reflexivity.
  split.
  - split; [exact Hrate|]. split; [exact Hgn|].
    apply (proj1 (C8_image_velocity_zero_cases 3 full range 500) zeroVecf (s 1000));
      try assumption; reflexivity.
  - split; [exact Hshort|].
    exact (proj2 (C8_image_velocity_zero_cases 3 short range 500) Hshort).
Defined.

(** C10. In IEEE arithmetic, for every capacity of three or more there is a
    well-formed buffer holding more than two entries on which the query
    with [dt = 0] examines an entry with the newest entry's time stamp: the
    test [diff >= dt] passes with [diff = 0], the inverse time [1000.0/diff]
    is a division by zero (an infinity), the query returns TRUE and the
    rates it returns are NaN.  Whatever the two rotations are, no rate
    computed with [diff = 0] is a number. *)
Theorem C10_zero_interval_divides_by_zero (N : Z) :
  3 <= N ->
  (exists (buf : @GeolocateBuffer_t IEEE754) gn gi,
      buffer_wf N buf
      /\ 2 < holding buf
      /\ stepBack N (newestIndex N buf) <> oldestIndex N buf
      /\ geobufAt N buf (newestIndex N buf) = Some gn
      /\ geobufAt N buf (stepBack N (newestIndex N buf)) = Some gi
      /\ timeDiff gn gi = 0
      /\ (to_int32 0 <=? timeDiff gn gi) = true
      /\ getLOSAngularRate N buf 0 = Some (TRUE (ratesBetween gi gn 0))
      /\ ratesBetween gi gn 0 = Vec3 S754_nan S754_nan S754_nan)
  /\ inverseTime (A:=IEEE754) 0 = S754_infinity false
  /\ (forall (gi gn : @GeolocateTelemetry_t IEEE754),
        IEEE.is_finite (c0 (ratesBetween gi gn 0)) = false
        /\ IEEE.is_finite (c1 (ratesBetween gi gn 0)) = false
        /\ IEEE.is_finite (c2 (ratesBetween gi gn 0)) = false).
Proof.
  intros HN. split; [|split; [reflexivity|]].
  - set (e := sample (A:=IEEE754) 7 identityDcm zeroVecf).
    set (buf := {| geobuf := replicate (Z.to_nat N) e; buf_in := 0; holding := N |}).
    assert (Hnew : newestIndex N buf = N - 1).
    { unfold newestIndex, buf; cbn [buf_in]. change (0 - 1 <? 0) with true. cbn iota. lia. }
    assert (Hidx : stepBack N (newestIndex N buf) = N - 2).
    { rewrite Hnew. unfold stepBack. destruct (Z.ltb_spec (N - 1 - 1) 0); lia. }
    assert (Hold : oldestIndex N buf = 0).
    { unfold oldestIndex. rewrite Hnew. cbn [holding buf].
      destruct (Z.ltb_spec (N - 1 - (N - 1)) 0); lia. }
    assert (Hat : forall i, 0 <= i < N -> geobufAt N buf i = Some e).
    { intros i Hi. rewrite geobufAt_lookup by lia. cbn [geobuf buf].
      apply lookup_replicate_2. lia. }
    exists buf, e, e. repeat split.
    + cbn [geobuf buf]. rewrite length_replicate. lia.
    + cbn; lia.
    + cbn; lia.
    + cbn; lia.
    + cbn; lia.
    + cbn [holding buf]. lia.
    + rewrite Hidx, Hold. lia.
    + rewrite Hnew. apply Hat. lia.
    + rewrite Hidx. apply Hat. lia.
    + unfold getLOSAngularRate. cbn [holding buf].
      destruct (Z.ltb_spec N 2); [lia|].
      fold buf. rewrite Hidx, Hold, Hnew. cbn [losLoop].
      destruct (Z.eqb_spec (N - 2) 0); [lia|]. cbn [negb].
      rewrite !Hat by lia. reflexivity.
  - intros gi gn. unfold ratesBetween.
    change (inverseTime (A:=IEEE754) 0) with (S754_infinity false).
    cbn [c0 c1 c2 fmul IEEE754]. now rewrite !mul32_infinity.
Qed.

Lemma C10_zero_interval_divides_by_zero_witness :
  3 <= 5
  /\ (exists (buf : @GeolocateBuffer_t IEEE754) gn gi,
        buffer_wf 5 buf
        /\ 2 < holding buf
        /\ getLOSAngularRate 5 buf 0 = Some (TRUE (ratesBetween gi gn 0))
        /\ ratesBetween gi gn 0 = Vec3 S754_nan S754_nan S754_nan).
Proof.
  assert (H : 3 <= 5) by lia.
  split; [exact H|].
  destruct (proj1 (C10_zero_interval_divides_by_zero 5 H))
    as (buf & gn & gi & Hwf & Hh & _ & _ & _ & _ & _ & Hr & Hnan).
  exists buf, gn, gi. auto.
Defined.

(** ** The terrain intersector *)

Section TerrainFacts.
Context {A : Arith} {E : OrionLib}.

Lemma terrainLoop_rayMarch (pGeo : GeolocateTelemetry_t)
    (elev : double -> double -> float) (fuel : nat) :
  forall (Step End : double) (PosLLA : vec3 double) (range : double),
  option_map (fun r => (fst (fst r), snd r))
             (terrainLoop fuel pGeo elev Step End PosLLA range)
  = rayMarch fuel (underGround pGeo elev) Step End range.
Proof.
  induction fuel as [|fuel IH]; intros Step End PosLLA range; [reflexivity|].
  cbn [terrainLoop rayMarch]. unfold underGround at 1.
  destruct (range <=d End); [|reflexivity].
  destruct (at3 (rayPointLLA pGeo range) ALT <=d
            f2d (elev (at3 (rayPointLLA pGeo range) LAT) (at3 (rayPointLLA pGeo range) LON))).
  - destruct (negb (_ ==d StepFine)); [apply IH|reflexivity].
  - apply IH.
Qed.

Lemma rayMarch_ext (under1 under2 : double -> bool) :
  (forall r, under1 r = under2 r) ->
  forall (fuel : nat) (Step End range : double),
  rayMarch fuel under1 Step End range = rayMarch fuel under2 Step End range.
Proof.
  intros Hext fuel. induction fuel as [|fuel IH]; intros Step End range; [reflexivity|].
  cbn [rayMarch]. rewrite Hext.
  destruct (range <=d End); [|reflexivity].
  destruct (under2 range).
  - destruct (negb (_ ==d StepFine)); [apply IH|reflexivity].
  - apply IH.
Qed.

(** On success the returned position is the point of the ray at the
    returned range with its altitude set to the ground height there, and
    that point is at or under the ground. *)
Lemma terrainLoop_success (pGeo : GeolocateTelemetry_t)
    (elev : double -> double -> float) (fuel : nat) :
  forall (Step End : double) (PosLLA : vec3 double) (range : double)
         (pos : vec3 double) (r : double),
  terrainLoop fuel pGeo elev Step End PosLLA range = Some (true, pos, r) ->
  pos = set3 (rayPointLLA pGeo r) ALT
             (f2d (elev (rayPointLLA pGeo r).[LAT] (rayPointLLA pGeo r).[LON]))
  /\ underGround pGeo elev r = true.
Proof.
  induction fuel as [|fuel IH]; intros Step End PosLLA range pos r; [discriminate|].
  cbn [terrainLoop]. unfold underGround in *.
  destruct (range <=d End); [|discriminate].
  destruct (at3 (rayPointLLA pGeo range) ALT <=d
            f2d (elev (at3 (rayPointLLA pGeo range) LAT) (at3 (rayPointLLA pGeo range) LON)))
    eqn:Hunder.
  - destruct (negb (_ ==d StepFine)); [apply IH|].
    intros [= <- <-]. split; [reflexivity|exact Hunder].
  - apply IH.
Qed.

(** A march that finds every point it examines above the ground is the
    march over a ray that is above the ground everywhere. *)
Lemma rayMarch_above (under : double -> bool) (fuel : nat) :
  forall Step End range : double,
  (forall r, In r (examinedAbove fuel Step End range) -> under r = false) ->
  rayMarch fuel under Step End range = rayMarch fuel (fun _ => false) Step End range.
Proof.
  induction fuel as [|fuel IH]; intros Step End range Habove; [reflexivity|].
  cbn [rayMarch examinedAbove] in *.
  destruct (range <=d End); [|reflexivity].
  rewrite (Habove range) by (left; reflexivity).
  apply IH. intros r Hr. apply Habove. right. exact Hr.
Qed.

End TerrainFacts.

Section TerrainIEEE.
Existing Instance IEEE754.
Context {E : OrionLib}.

(** What the check establishes: the march returns whatever the outcomes
    of the ground test are, and a TRUE comes with a range within the
    maximum distance. *)
Lemma marchReturns_sound (under : @double IEEE754 -> bool) (fuel : nat) :
  forall Step End range : @double IEEE754,
  marchReturns fuel Step End range = true ->
  exists res, rayMarch fuel under Step End range = Some res
              /\ (fst res = true -> (snd res <=d MaxDistance) = true).
Proof.
  induction fuel as [|fuel IH]; intros Step End range; [discriminate|].
  cbn [marchReturns rayMarch].
  destruct (range <=d End).
  - intros [Hunder Habove]%andb_prop.
    destruct (under range).
    + destruct (negb (_ ==d StepFine)); [now apply IH|].
      eexists; split; [reflexivity|]. intros _. exact Hunder.
    + now apply IH.
  - intros _. eexists; split; [reflexivity|]. discriminate.
Qed.

(** More fuel does not change a result. *)
Lemma rayMarch_more_fuel (under : @double IEEE754 -> bool) (fuel : nat) :
  forall (Step End range : @double IEEE754) (res : bool * @double IEEE754) (n : nat),
  rayMarch fuel under Step End range = Some res ->
  rayMarch (n + fuel) under Step End range = Some res.
Proof.
  induction fuel as [|fuel IH]; intros Step End range res n; [discriminate|].
  rewrite Nat.add_succ_r. cbn [rayMarch].
  destruct (range <=d End); [|auto].
  destruct (under range).
  - destruct (negb (_ ==d StepFine)); [apply IH|auto].
  - apply IH.
Qed.

(** 420 tests of the loop condition are enough from the initial state. *)
Lemma march_from_start_returns :
  marchReturns 420 StepCoarse MaxDistance StepCoarse = true.
Proof. vm_compute. reflexivity. Qed.

(** With no point of the ray at or under the ground the march ends above
    the maximum distance. *)
Lemma march_never_under :
  exists range : @double IEEE754,
    rayMarch 420 (fun _ => false) StepCoarse MaxDistance StepCoarse = Some (false, range)
    /\ (MaxDistance <d range) = true.
Proof. eexists. split; vm_compute; reflexivity. Qed.

(** The points examined by a march that stays above the ground all lie
    between the first step and the maximum distance. *)
Lemma examined_within :
  forallb (fun range : @double IEEE754 => (StepCoarse <=d range) && (range <=d MaxDistance))
          (examinedAbove 420 StepCoarse MaxDistance StepCoarse) = true.
Proof. vm_compute. reflexivity. Qed.

End TerrainIEEE.

(** C7. In IEEE arithmetic, for every record, every elevation lookup and
    every earth model, the terrain intersector returns within 420 tests of
    its loop condition (more fuel changes nothing).  When none of the 261
    points the coarse march examines is at or under the ground, it returns
    FALSE with the marched range above the maximum distance of 15000 m.
    Those points all lie from 30 m to 15000 m along the ray: what the
    ground does beyond 15000 m, or between them, is not asked. *)
Theorem C7_terrain_march_returns
    {E : @OrionLib IEEE754} (pGeo : GeolocateTelemetry_t)
    (getElevationHAE : @double IEEE754 -> @double IEEE754 -> @float IEEE754)
    (PosLLA : vec3 (@double IEEE754)) (n : nat) :
  exists res,
    getTerrainIntersection (n + 420) pGeo getElevationHAE PosLLA = Some res
    /\ ((forall range,
           In range (examinedAbove (A:=IEEE754) 420 StepCoarse MaxDistance StepCoarse) ->
           underGround pGeo getElevationHAE range = false) ->
        fst (fst res) = false /\ (MaxDistance <d snd res) = true)
    /\ (forall range,
          In range (examinedAbove (A:=IEEE754) 420 StepCoarse MaxDistance StepCoarse) ->
          (StepCoarse <=d range) = true /\ (range <=d MaxDistance) = true).
Proof.
  unfold getTerrainIntersection.
  pose proof (terrainLoop_rayMarch pGeo getElevationHAE (n + 420)
                StepCoarse MaxDistance PosLLA StepCoarse) as Hview.
  destruct (marchReturns_sound (underGround pGeo getElevationHAE) 420 _ _ _
              march_from_start_returns) as (res & Hres & _).
  apply (rayMarch_more_fuel _ _ _ _ _ _ n) in Hres as Hres'.
  rewrite Hres' in Hview.
  destruct (terrainLoop (n + 420) pGeo getElevationHAE StepCoarse MaxDistance PosLLA StepCoarse)
    as [[[b pos] r]|] eqn:Hloop; [|discriminate].
  cbn [option_map fst snd] in Hview. injection Hview as <-.
  exists (b, pos, r). split; [reflexivity|]. split.
  - intros Habove. cbn [fst snd].
    destruct march_never_under as (range & Hmarch & Hfar).
    rewrite (rayMarch_above _ _ _ _ _ Habove) in Hres.
    rewrite Hmarch in Hres. injection Hres as <- <-. auto.
  - intros range Hin.
    apply andb_prop. revert range Hin. apply forallb_forall. exact examined_within.
Qed.

Lemma C7_terrain_march_returns_witness :
  (* 20000 m above the flat earth, looking straight down on ground at 0 m:
     the ray meets the ground at 20000 m, beyond the maximum distance *)
  let E := @FlatEarth IEEE754 in
  let pGeo := lookingDown (A:=IEEE754) 20000 in
  let elev := fun _ _ : @double IEEE754 => @flit IEEE754 0 0 in
  underGround pGeo elev (@dlit IEEE754 20000 0) = true
  /\ (forall range,
        In range (examinedAbove (A:=IEEE754) 420 StepCoarse MaxDistance StepCoarse) ->
        underGround pGeo elev range = false)
  /\ exists res,
       getTerrainIntersection (0 + 420) pGeo elev zeroVecd = Some res
       /\ fst (fst res) = false /\ (MaxDistance <d snd res) = true.
Proof.
  intros E pGeo elev.
  assert (Hfar : underGround pGeo elev (@dlit IEEE754 20000 0) = true)
    by (vm_compute; reflexivity).
  assert (Habove : forall range,
            In range (examinedAbove (A:=IEEE754) 420 StepCoarse MaxDistance StepCoarse) ->
            underGround pGeo elev range = false).
  { intros range Hin. apply negb_true_iff. revert range Hin.
    apply forallb_forall. vm_compute. reflexivity. }
  split; [exact Hfar|]. split; [exact Habove|].
  destruct (C7_terrain_march_returns pGeo elev zeroVecd 0) as (res & Hrun & Hfalse & _).
  exists res. split; [exact Hrun|]. exact (Hfalse Habove).
Defined.

(** With the elevation lookup the constant [h]: whenever the terrain
    intersector reports an intersection, the altitude it returns is [h]
    itself, the latitude and longitude are those of the point of the ray at
    the returned range, that point is at or under the ground, and the
    returned range is within the maximum search distance. *)
Lemma terrain_success_on_flat_ground
    {E : @OrionLib IEEE754} (fuel : nat) (pGeo : GeolocateTelemetry_t)
    (h : @float IEEE754) (PosLLA pos : vec3 (@double IEEE754)) (range : @double IEEE754) :
  getTerrainIntersection fuel pGeo (fun _ _ => h) PosLLA = Some (true, pos, range) ->
  pos.[ALT] = f2d h
  /\ pos.[LAT] = (rayPointLLA pGeo range).[LAT]
  /\ pos.[LON] = (rayPointLLA pGeo range).[LON]
  /\ underGround pGeo (fun _ _ => h) range = true
  /\ (range <=d MaxDistance) = true.
Proof.
  unfold getTerrainIntersection. intros Hrun.
  destruct (terrainLoop_success _ _ _ _ _ _ _ _ _ Hrun) as [-> Hunder].
  repeat split; try reflexivity; try exact Hunder.
  pose proof (terrainLoop_rayMarch pGeo (fun _ _ => h) fuel
                StepCoarse MaxDistance PosLLA StepCoarse) as Hview.
  rewrite Hrun in Hview. cbn [option_map fst snd] in Hview. symmetry in Hview.
  apply (rayMarch_more_fuel _ _ _ _ _ _ 420) in Hview.
  destruct (marchReturns_sound (underGround pGeo (fun _ _ => h)) 420 _ _ _
              march_from_start_returns) as (res & Hres & Hwithin).
  apply (rayMarch_more_fuel _ _ _ _ _ _ fuel) in Hres.
  rewrite Nat.add_comm, Hview in Hres. injection Hres as <-.
  now apply Hwithin.
Qed.

(** A run that succeeds: from 100 m above the flat earth, looking straight
    down on ground at 48.5 m, the intersection is reported at 52 m with the
    altitude 48.5 m. *)
Lemma terrain_success_run :
  @getTerrainIntersection IEEE754 FlatEarth 100 (lookingDown 100)
    (fun _ _ => flit 485 (-1)) zeroVecd
  = Some (true, Vec3 (dlit 0 0) (dlit 0 0) (dlit 485 (-1)), dlit 52 0).
Proof. vm_compute. reflexivity. Qed.

(** The march over a ray that is at or under the ground from 3060 m on:
    the coarse sample at 3060.3 m is under the ground, the step there is
    30.603 m, the fine samples run from 3030.697 m to 3059.697 m, all above
    the ground, and the next one is beyond the end of the fine window. *)
Lemma march_misses_ground_at_3060 :
  exists range : @double IEEE754,
    rayMarch 420 (groundFrom 3060) StepCoarse MaxDistance StepCoarse = Some (false, range).
Proof. eexists. vm_compute. reflexivity. Qed.

(** The same for every record, elevation lookup and earth model whose ray
    is at or under the ground exactly from 3060 m on. *)
Lemma terrain_miss_at_3060
    {E : @OrionLib IEEE754} (pGeo : GeolocateTelemetry_t)
    (getElevationHAE : @double IEEE754 -> @double IEEE754 -> @float IEEE754)
    (PosLLA : vec3 (@double IEEE754)) (n : nat) :
  (forall range, underGround pGeo getElevationHAE range = groundFrom 3060 range) ->
  exists pos range,
    getTerrainIntersection (n + 420) pGeo getElevationHAE PosLLA = Some (false, pos, range).
Proof.
  intros Hground. unfold getTerrainIntersection.
  pose proof (terrainLoop_rayMarch pGeo getElevationHAE (n + 420)
                StepCoarse MaxDistance PosLLA StepCoarse) as Hview.
  destruct march_misses_ground_at_3060 as [range Hmarch].
  apply (rayMarch_more_fuel _ _ _ _ _ _ n) in Hmarch.
  rewrite (rayMarch_ext _ _ Hground), Hmarch in Hview.
  destruct (terrainLoop (n + 420) pGeo getElevationHAE StepCoarse MaxDistance PosLLA StepCoarse)
    as [[[b pos] r]|]; [|discriminate].
  cbn [option_map fst snd] in Hview. injection Hview as -> ->.
  exists pos, range. reflexivity.
Qed.

(** C6 (the code departs from the claim). A camera 3060 m above flat ground
    of constant elevation 100 m, looking straight down: the ray starts above
    the ground and is at the ground at the range 3060 m, well within the
    maximum search distance, yet the terrain intersector returns FALSE.  The
    coarse sample at 3060.3 m finds the ray under the ground, but the fine
    samples, one metre apart from 3030.697 m on, stop at 3059.697 m, 0.303 m
    above the ground; the range left behind is 3060.697 m. *)
Theorem C6_flat_ground_at_3060m_is_missed :
  let E := @FlatEarth IEEE754 in
  let pGeo := lookingDown (A:=IEEE754) 3160 in
  let elev : @double IEEE754 -> @double IEEE754 -> @float IEEE754 :=
    fun _ _ => flit 100 0 in
  underGround pGeo elev (dlit 0 0) = false
  /\ underGround pGeo elev (dlit 3060 0) = true
  /\ (dlit (Arith:=IEEE754) 3060 0 <=d MaxDistance) = true
  /\ getTerrainIntersection 420 pGeo elev zeroVecd
     = Some (false,
             Vec3 (S754_zero false) (S754_zero false)
                  (S754_finite false 7058196146299072 (-46)),
             S754_finite false 6730543881228026 (-41)).
Proof.
  intros E pGeo elev.
  split; [vm_compute; reflexivity|].
  split; [vm_compute; reflexivity|].
  split; vm_compute; reflexivity.
Qed.

(** ** The offset projector *)

(** C4. The offset projector returns FALSE exactly when the cosine of the
    latitude is zero, or the down component of the vector from the sensor to
    the image point is not positive, or the down component of the vector
    after the angular offset is not positive; in every other case it returns
    TRUE with a new position.  (It is a total function: no input makes it
    stop without a result.) *)
Theorem C4_offset_fails_exactly_when
    {A : Arith} {L : Libm} {E : OrionLib}
    (geo : GeolocateTelemetry_t) (imagePosLLA : vec3 double) (ydev zdev : float) :
  (offsetImageLocation geo imagePosLLA ydev zdev = FALSE
   <-> (cosLat (llaTrig geo) ==d z2d 0) = true
       \/ ((vectorToImage geo imagePosLLA).[DOWN] <=f fzero) = true
       \/ ((shiftedVector geo imagePosLLA ydev zdev).[DOWN] <=f fzero) = true)
  /\ ((cosLat (llaTrig geo) ==d z2d 0) = false ->
      ((vectorToImage geo imagePosLLA).[DOWN] <=f fzero) = false ->
      ((shiftedVector geo imagePosLLA ydev zdev).[DOWN] <=f fzero) = false ->
      exists newPosLLA, offsetImageLocation geo imagePosLLA ydev zdev = TRUE newPosLLA).
Proof.
  unfold offsetImageLocation.
  destruct (cosLat (llaTrig geo) ==d z2d 0) eqn:Hpole.
  { split; [|discriminate]. split; auto. }
  destruct ((vectorToImage geo imagePosLLA).[DOWN] <=f fzero) eqn:Hdown.
  { split; [|discriminate]. split; auto. }
  destruct ((shiftedVector geo imagePosLLA ydev zdev).[DOWN] <=f fzero) eqn:Hnew.
  { split; [|discriminate]. split; auto. }
  split.
  - split; [discriminate|]. intros [H|[H|H]]; discriminate.
  - intros _ _ _. eexists; reflexivity.
Qed.

Lemma C4_offset_fails_exactly_when_witness :
  let E := @FlatEarth IEEE754 in
  let L := SmallAngle in
  (* the image point is above the sensor: the second bail out *)
  let geo := sample (A:=IEEE754) 0 identityDcm zeroVecf in
  let above : vec3 (@double IEEE754) := Vec3 (dlit 0 0) (dlit 0 0) (dlit 50 0) in
  let below : vec3 (@double IEEE754) := Vec3 (dlit 0 0) (dlit 0 0) (dlit (-50) 0) in
  offsetImageLocation geo above fzero fzero = FALSE
  /\ exists newPosLLA, offsetImageLocation geo below fzero fzero = TRUE newPosLLA.
Proof.
  intros E L geo above below. split.
  - apply (proj1 (C4_offset_fails_exactly_when geo above fzero fzero)).
    right; left. vm_compute. reflexivity.
  - apply (proj2 (C4_offset_fails_exactly_when geo below fzero fzero));
      vm_compute; reflexivity.
Defined.

(** ** The telemetry decoder *)

Section DecoderFacts.
Context {A : Arith} {L : Libm} {E : OrionLib}.

(** What a successful decode stores: the tilt of the record and the two
    rotations, in terms of the decoded core record. *)
Lemma Decode_fields (pPkt : OrionPkt_t) (base0 : GeolocateTelemetryCore_t) :
  decodeGeolocateTelemetryCorePacketStructure pPkt = Some base0 ->
  exists r,
    DecodeGeolocateTelemetry pPkt = TRUE r
    /\ tilt (base r) = wrapAngle90f (extendedTilt (tilt base0))
    /\ gimbalDcm r = quaternionToDCM (gimbalQuat base0)
    /\ cameraDcm r =
       matrixMultiplyf (gimbalDcm r)
         (setDCMBasedOnPanTilt
            (subtractAnglesf (pan base0) (fst (outputShifts base0)))
            (subtractAnglesf (extendedTilt (tilt base0)) (snd (outputShifts base0)))).
Proof.
  intros Hdec. unfold DecodeGeolocateTelemetry, extendedTilt. rewrite Hdec.
  destruct (computeDateAndTimeFromWeekAndItow _ _ _) as [[[[[y mo] d] h] mi] se].
  destruct (deg2radf (flit 90 0) <f tilt base0);
    destruct (llaToECEFandTrig _) as [pos trig];
    eexists; (split; [reflexivity|]); cbn; auto.
Qed.

(** A failed decode of the packet is a failed decode of the telemetry. *)
Lemma Decode_failure (pPkt : OrionPkt_t) :
  decodeGeolocateTelemetryCorePacketStructure pPkt = None ->
  DecodeGeolocateTelemetry pPkt = FALSE.
Proof. intros Hdec. unfold DecodeGeolocateTelemetry. now rewrite Hdec. Qed.

End DecoderFacts.

(** ** The tilt in IEEE binary32

    The mantissa of the difference of two binary32 numbers is followed
    through the rounding of [SFsub]: which bits are shifted out, and that
    the result is within half a unit in the last place. *)

Lemma digits2_pos_size (p : positive) : digits2_pos p = Pos.size p.
Proof. induction p; cbn; congruence. Qed.

Lemma digits2_pos_unique (p : positive) (n : Z) :
  2 ^ (n - 1) <= Zpos p < 2 ^ n -> Zpos (digits2_pos p) = n.
Proof.
  intros [Hlo Hhi]. rewrite digits2_pos_size.
  assert (Hn : 0 < n).
  { destruct (Z.lt_ge_cases 0 n) as [|Hle]; [assumption|].
    destruct (Z.eq_dec n 0) as [->|]; [cbn in Hhi; lia|].
    rewrite Z.pow_neg_r in Hhi by lia. lia. }
  pose proof (Pos.size_gt p) as Hgt. pose proof (Pos.size_le p) as Hle.
  apply Pos2Z.pos_lt_pos in Hgt. apply Pos2Z.pos_le_pos in Hle.
  rewrite Pos2Z.inj_pow in Hgt, Hle. change (Zpos p~0) with (2 * Zpos p) in Hle.
  assert (H1 : Zpos (Pos.size p) < n + 1).
  { apply (Z.pow_lt_mono_r_iff 2); [lia|lia|].
    rewrite Z.pow_add_r by lia. change (2 ^ 1) with 2. lia. }
  assert (H2 : n - 1 < Zpos (Pos.size p)).
  { apply (Z.pow_lt_mono_r_iff 2); [lia|lia|]. lia. }
  lia.
Qed.

Lemma round_final (s : bool) (g : positive) (e : Z) :
  Zpos (digits2_pos g) = 24 -> -149 <= e <= 104 ->
  (let '(mrs'', e'') :=
     shr {| shr_m := Zpos g; shr_r := false; shr_s := false |} e
         (fexp 24 128 (Zdigits2 (Zpos g) + e) - e) in
   match shr_m mrs'' with
   | 0 => S754_zero s
   | Z.pos m => if e'' <=? 128 - 24 then S754_finite s m e'' else S754_infinity s
   | Z.neg _ => S754_nan
   end) = S754_finite s g e.
Proof.
  intros Hd He. cbn [Zdigits2]. rewrite Hd.
  unfold fexp, emin.
  replace (Z.max (24 + e - 24) (3 - 128 - 24) - e) with 0 by lia.
  cbn [shr shr_m].
  destruct (Z.leb_spec e (128 - 24)); [reflexivity|lia].
Qed.

Lemma round_shift2 (s : bool) (M : positive) :
  2 ^ 25 <= Zpos M < 2 ^ 26 - 2 ->
  exists g, binary_round 24 128 s M (-23) = S754_finite s g (-21)
            /\ 4 * Zpos g - 2 <= Zpos M <= 4 * Zpos g + 2.
Proof.
  intros HM.
  assert (Hd : Zpos (digits2_pos M) = 26) by (apply digits2_pos_unique; lia).
  unfold binary_round. rewrite Hd.
  change (fexp 24 128 (26 + -23)) with (-21).
  change (shl_align M (-23) (-21)) with (M, -23).
  unfold binary_round_aux, shr_fexp. cbn [Zdigits2]. rewrite Hd.
  change (fexp 24 128 (26 + -23) - -23) with 2.
  cbn [shr_record_of_loc shr Z.add iter_pos].
  change (-23 + 2) with (-21).
  destruct M as [[p|p|]|[p|p|]|]; try (exfalso; lia);
    cbn [SpecFloat.iter_pos shr_1 shr_m loc_of_shr_record round_nearest_even orb].
  - change (Z.pos p + 1) with (Z.pos (p + 1)).
    exists (p + 1)%positive. split; [|lia].
    apply round_final; [apply digits2_pos_unique|]; lia.
  - exists p. split; [|lia].
    apply round_final; [apply digits2_pos_unique|]; lia.
  - destruct (Z.even (Z.pos p)).
    + exists p. split; [|lia].
      apply round_final; [apply digits2_pos_unique|]; lia.
    + change (Z.pos p + 1) with (Z.pos (p + 1)).
      exists (p + 1)%positive. split; [|lia].
      apply round_final; [apply digits2_pos_unique|]; lia.
  - exists p. split; [|lia].
    apply round_final; [apply digits2_pos_unique|]; lia.
Qed.

Lemma round_shift1 (s : bool) (M : positive) :
  2 ^ 24 <= Zpos M < 2 ^ 25 - 1 ->
  exists g, binary_round 24 128 s M (-22) = S754_finite s g (-21)
            /\ 2 * Zpos g - 1 <= Zpos M <= 2 * Zpos g + 1.
Proof.
  intros HM.
  assert (Hd : Zpos (digits2_pos M) = 25) by (apply digits2_pos_unique; lia).
  unfold binary_round. rewrite Hd.
  change (fexp 24 128 (25 + -22)) with (-21).
  change (shl_align M (-22) (-21)) with (M, -22).
  unfold binary_round_aux, shr_fexp. cbn [Zdigits2]. rewrite Hd.
  change (fexp 24 128 (25 + -22) - -22) with 1.
  cbn [shr_record_of_loc shr Z.add iter_pos].
  change (-22 + 1) with (-21).
  destruct M as [p|p|]; try (exfalso; lia);
    cbn [SpecFloat.iter_pos shr_1 shr_m loc_of_shr_record round_nearest_even orb].
  - destruct (Z.even (Z.pos p)).
    + exists p. split; [|lia].
      apply round_final; [apply digits2_pos_unique|]; lia.
    + change (Z.pos p + 1) with (Z.pos (p + 1)).
      exists (p + 1)%positive. split; [|lia].
      apply round_final; [apply digits2_pos_unique|]; lia.
  - exists p. split; [|lia].
    apply round_final; [apply digits2_pos_unique|]; lia.
Qed.

Lemma round_exact (s : bool) (M : positive) (e : Z) :
  2 ^ 23 <= Zpos M < 2 ^ 24 -> -149 <= e <= 104 ->
  binary_round 24 128 s M e = S754_finite s M e.
Proof.
  intros HM He.
  assert (Hd : Zpos (digits2_pos M) = 24) by (apply digits2_pos_unique; lia).
  unfold binary_round. rewrite Hd.
  unfold fexp at 1, emin. replace (Z.max (24 + e - 24) (3 - 128 - 24)) with e by lia.
  unfold shl_align. rewrite Z.sub_diag.
  unfold binary_round_aux, shr_fexp. cbn [Zdigits2]. rewrite Hd.
  unfold fexp at 1, emin. replace (Z.max (24 + e - 24) (3 - 128 - 24) - e) with 0 by lia.
  cbn [shr_record_of_loc shr shr_m loc_of_shr_record round_nearest_even].
  now apply round_final.
Qed.

Lemma sub360_binade1 (m : positive) :
  13176799 <= Zpos m < 2 ^ 24 ->
  exists g,
    SFsub 24 128 (S754_finite false m (-23)) (S754_finite false 13176795 (-21))
    = S754_finite true g (-21)
    /\ 8388608 <= Zpos g <= 9882595.
Proof.
  intros Hm. unfold SFsub.
  change (Z.min (-23) (-21)) with (-23).
  change (shl_align m (-23) (-23)) with (m, -23).
  change (shl_align 13176795 (-21) (-23)) with (52707180%positive, -23).
  cbn [fst cond_Zopp].
  replace (Z.pos m - Z.pos 52707180) with (Z.neg (52707180 - m)) by lia.
  cbn [binary_normalize].
  destruct (round_shift2 true (52707180 - m)) as (g & Hg & Hbounds); [lia|].
  exists g. split; [exact Hg|lia].
Qed.

Lemma sub360_binade2_far (m : positive) :
  2 ^ 23 <= Zpos m <= 9576374 ->
  exists g,
    SFsub 24 128 (S754_finite false m (-22)) (S754_finite false 13176795 (-21))
    = S754_finite true g (-21)
    /\ 8388608 <= Zpos g <= 9882595.
Proof.
  intros Hm. unfold SFsub.
  change (Z.min (-22) (-21)) with (-22).
  change (shl_align m (-22) (-22)) with (m, -22).
  change (shl_align 13176795 (-21) (-22)) with (26353590%positive, -22).
  cbn [fst cond_Zopp].
  replace (Z.pos m - Z.pos 26353590) with (Z.neg (26353590 - m)) by lia.
  cbn [binary_normalize].
  destruct (round_shift1 true (26353590 - m)) as (g & Hg & Hbounds); [lia|].
  exists g. split; [exact Hg|lia].
Qed.

Lemma sub360_binade2_near (m : positive) :
  9576375 <= Zpos m <= 13176795 ->
  SFsub 24 128 (S754_finite false m (-22)) (S754_finite false 13176795 (-21))
  = S754_finite true (26353590 - m) (-22).
Proof.
  intros Hm. unfold SFsub.
  change (Z.min (-22) (-21)) with (-22).
  change (shl_align m (-22) (-22)) with (m, -22).
  change (shl_align 13176795 (-21) (-22)) with (26353590%positive, -22).
  cbn [fst cond_Zopp].
  replace (Z.pos m - Z.pos 26353590) with (Z.neg (26353590 - m)) by lia.
  cbn [binary_normalize].
  apply round_exact; lia.
Qed.

Lemma digits2_pos_bounds (p : positive) :
  2 ^ (Zpos (digits2_pos p) - 1) <= Zpos p < 2 ^ Zpos (digits2_pos p).
Proof.
  rewrite digits2_pos_size.
  pose proof (Pos.size_gt p) as Hgt. pose proof (Pos.size_le p) as Hle.
  apply Pos2Z.pos_lt_pos in Hgt. apply Pos2Z.pos_le_pos in Hle.
  rewrite Pos2Z.inj_pow in Hgt, Hle. change (Zpos p~0) with (2 * Zpos p) in Hle.
  split; [|exact Hgt].
  replace (Z.pos (Pos.size p)) with (Z.pos (Pos.size p) - 1 + 1) in Hle by lia.
  rewrite Z.pow_add_r in Hle by lia. change (2 ^ 1) with 2 in Hle.
  change (Z.pos 2) with 2 in Hle. lia.
Qed.

(** A binary32 number with exponent field [e] has a mantissa of 24 bits. *)
Lemma valid_mantissa (s : bool) (m : positive) (e : Z) :
  valid_binary 24 128 (S754_finite s m e) = true -> -149 < e ->
  2 ^ 23 <= Zpos m < 2 ^ 24.
Proof.
  cbn [valid_binary]. unfold bounded, canonical_mantissa, fexp, emin.
  intros [Hc _]%andb_prop He. apply Z.eqb_eq in Hc.
  pose proof (digits2_pos_bounds m) as Hb.
  assert (Hd : Zpos (digits2_pos m) = 24) by lia.
  rewrite Hd in Hb. exact Hb.
Qed.

Lemma tilt_binades (t : spec_float) :
  valid_binary 24 128 t = true ->
  SFleb (S754_finite false 13176799 (-23)) t = true ->
  SFleb t (S754_finite false 13176795 (-22)) = true ->
  exists m,
    (t = S754_finite false m (-23) /\ 13176799 <= Zpos m < 2 ^ 24)
    \/ (t = S754_finite false m (-22) /\ 2 ^ 23 <= Zpos m <= 13176795).
Proof.
  intros Hv Hlo Hhi.
  destruct t as [s|[]| |[] m e]; try discriminate.
  unfold SFleb, SFcompare in Hlo, Hhi.
  exists m.
  destruct (Z.compare_spec (-23) e) as [<-|Hlt|Hgt]; [| |discriminate].
  - left. split; [reflexivity|].
    pose proof (valid_mantissa _ _ _ Hv ltac:(lia)) as Hm.
    change (Pos.compare_cont Eq 13176799 m) with (13176799 ?= m)%positive in Hlo.
    destruct (Pos.compare_spec 13176799 m); cbn in Hlo; try discriminate; lia.
  - destruct (Z.compare_spec e (-22)) as [->|Hlt'|Hgt']; [|lia|discriminate].
    right. split; [reflexivity|].
    pose proof (valid_mantissa _ _ _ Hv ltac:(lia)) as Hm.
    change (Pos.compare_cont Eq m 13176795) with (m ?= 13176795)%positive in Hhi.
    destruct (Pos.compare_spec m 13176795); cbn in Hhi; try discriminate; lia.
Qed.

Lemma SFcompare_pos_pos (m1 m2 : positive) (e : Z) :
  SFcompare (S754_finite false m1 e) (S754_finite false m2 e) = Some (m1 ?= m2)%positive.
Proof. cbn [SFcompare]. now rewrite Z.compare_refl. Qed.

Lemma SFcompare_neg_neg (m1 m2 : positive) (e : Z) :
  SFcompare (S754_finite true m1 e) (S754_finite true m2 e)
  = Some (CompOpp (m1 ?= m2)%positive).
Proof. cbn [SFcompare]. now rewrite Z.compare_refl. Qed.

(** The tilt extension in binary32: for every binary32 number from
    13176799 * 2^-23 (90.00003 degrees) to 180 degrees, the tilt is above 90
    degrees, and the tilt less 360 degrees is above -270 degrees, at most
    -180 degrees, and left alone by [wrapAngle90f]. *)
Lemma extended_tilt_window (t : spec_float) :
  valid_binary 24 128 t = true ->
  SFleb (S754_finite false 13176799 (-23)) t = true ->
  SFleb t (@deg2radf IEEE754 (flit 180 0)) = true ->
  @extendedTilt IEEE754 t = SFsub 24 128 t (@deg2radf IEEE754 (flit 360 0))
  /\ @wrapAngle90f IEEE754 (@extendedTilt IEEE754 t) = @extendedTilt IEEE754 t
  /\ SFltb (SFopp (@deg2radf IEEE754 (flit 270 0))) (@extendedTilt IEEE754 t) = true
  /\ SFleb (@extendedTilt IEEE754 t) (SFopp (@deg2radf IEEE754 (flit 180 0))) = true
  /\ SFleb (@extendedTilt IEEE754 t) (@deg2radf IEEE754 (flit 90 0)) = true.
Proof.
  intros Hv Hlo Hhi.
  change (@deg2radf IEEE754 (flit 180 0)) with (S754_finite false 13176795 (-22)) in *.
  unfold extendedTilt, wrapAngle90f.
  change (@deg2radf IEEE754 (flit 90 0)) with (S754_finite false 13176795 (-23)).
  change (@deg2radf IEEE754 (flit 360 0)) with (S754_finite false 13176795 (-21)).
  change (@deg2radf IEEE754 (flit 270 0)) with (S754_finite false 9882596 (-21)).
  cbn [flt fle fsub fadd fneg IEEE754 SFopp negb].
  destruct (tilt_binades t Hv Hlo Hhi) as (m & [[-> Hm]|[-> Hm]]).
  - assert (Habove : SFltb (S754_finite false 13176795 (-23)) (S754_finite false m (-23)) = true).
    { unfold SFltb. rewrite SFcompare_pos_pos.
      now rewrite (proj2 (Pos.compare_lt_iff 13176795 m)) by lia. }
    rewrite Habove.
    destruct (sub360_binade1 m Hm) as (g & -> & Hg).
    assert (Hcmp : (g ?= 9882596)%positive = Lt) by (apply Pos.compare_lt_iff; lia).
    unfold SFltb, SFleb. rewrite !SFcompare_neg_neg.
    rewrite Hcmp, (Pos.compare_antisym g 9882596), Hcmp. cbn.
    repeat split; reflexivity.
  - assert (Habove : SFltb (S754_finite false 13176795 (-23)) (S754_finite false m (-22)) = true)
      by reflexivity.
    rewrite Habove.
    destruct (Z.le_gt_cases (Z.pos m) 9576374) as [Hfar|Hnear].
    + destruct (sub360_binade2_far m ltac:(lia)) as (g & -> & Hg).
      assert (Hcmp : (g ?= 9882596)%positive = Lt) by (apply Pos.compare_lt_iff; lia).
      unfold SFltb, SFleb. rewrite !SFcompare_neg_neg.
      rewrite Hcmp, (Pos.compare_antisym g 9882596), Hcmp. cbn.
      repeat split; reflexivity.
    + rewrite (sub360_binade2_near m) by lia.
      assert (Hcmp : SFleb (S754_finite true (26353590 - m) (-22))
                           (S754_finite true 13176795 (-22)) = true).
      { unfold SFleb. rewrite SFcompare_neg_neg.
        destruct (Pos.compare_spec (26353590 - m) 13176795); try reflexivity. lia. }
      rewrite Hcmp. repeat split; reflexivity.
Qed.

(** A tilt above -180 degrees and at most 90 degrees is left alone by the
    tilt extension and by [wrapAngle90f], and is above -270 degrees. *)
Lemma kept_tilt_window (t : spec_float) :
  SFltb (SFopp (@deg2radf IEEE754 (flit 180 0))) t = true ->
  SFleb t (@deg2radf IEEE754 (flit 90 0)) = true ->
  @extendedTilt IEEE754 t = t
  /\ @wrapAngle90f IEEE754 t = t
  /\ SFltb (SFopp (@deg2radf IEEE754 (flit 270 0))) t = true.
Proof.
  unfold extendedTilt, wrapAngle90f.
  change (@deg2radf IEEE754 (flit 180 0)) with (S754_finite false 13176795 (-22)).
  change (@deg2radf IEEE754 (flit 90 0)) with (S754_finite false 13176795 (-23)).
  change (@deg2radf IEEE754 (flit 270 0)) with (S754_finite false 9882596 (-21)).
  cbn [flt fle fsub fadd fneg IEEE754 SFopp negb].
  intros Hlo Hhi.
  destruct t as [s|[]| |[] m e]; try discriminate; try (repeat split; reflexivity).
  - (* a negative number *)
    assert (He : e <= -22).
    { unfold SFltb, SFcompare in Hlo.
      destruct (Z.compare_spec (-22) e); cbn in Hlo; try discriminate; lia. }
    unfold SFltb, SFleb, SFcompare.
    rewrite (proj2 (Z.compare_lt_iff e (-21))) by lia.
    rewrite (proj2 (Z.compare_gt_iff (-21) e)) by lia.
    repeat split; reflexivity.
  - (* a positive number *)
    assert (Hnot : SFltb (S754_finite false 13176795 (-23)) (S754_finite false m e) = false).
    { unfold SFltb, SFleb, SFcompare in *.
      destruct (Z.compare_spec e (-23)) as [->|Hlt|Hgt]; try discriminate.
      - change (Z.compare (-23) (-23)) with Eq. cbn iota.
        change (Pos.compare_cont Eq 13176795 m) with (13176795 ?= m)%positive.
        change (Pos.compare_cont Eq m 13176795) with (m ?= 13176795)%positive in Hhi.
        rewrite Pos.compare_antisym. destruct (m ?= 13176795)%positive; try discriminate; reflexivity.
      - destruct (Z.compare_spec (-23) e); try lia; reflexivity. }
    rewrite Hnot. repeat split; reflexivity.
Qed.

(** The three binary32 numbers between the decoder's 90 degrees and
    13176799 * 2^-23: the tilt less 360 degrees rounds to -270 degrees, which
    [wrapAngle90f] turns forward again, to a value above 90 degrees. *)
Lemma stored_tilt_at_the_edge :
  Forall (fun m : positive =>
            let t : @float IEEE754 := S754_finite false m (-23) in
            (deg2radf (flit 90 0) <f t) = true
            /\ extendedTilt t = fneg (deg2radf (flit 270 0))
            /\ wrapAngle90f (extendedTilt t) = S754_finite false 13176796 (-23)
            /\ (deg2radf (flit 90 0) <f wrapAngle90f (extendedTilt t)) = true)
         [13176796; 13176797; 13176798]%positive.
Proof. repeat constructor; vm_compute; reflexivity. Qed.

Section TiltFacts.
Existing Instance IEEE754.
Context {L : Libm} {E : OrionLib}.

(** C2 (amended). In IEEE binary32, for every libm, earth model and codec:
    for every packet that decodes to a core record whose tilt is a binary32
    number from 13176799 * 2^-23 radians (90.00003 degrees, the fourth
    binary32 number above the decoder's 90 degrees) to the decoder's 180
    degrees, the decoder subtracts 360 degrees from the tilt before the
    rotations are composed, the composition uses the wrapped difference of
    that extended-range tilt and the tilt output shift, and the tilt stored
    in the record is the extended-range value itself, above -270 and at
    most -180 degrees: it is not brought back into (-180, 180]. *)
Theorem C2_tilt_above_90_is_stored_extended
    (pPkt : OrionPkt_t) (base0 : GeolocateTelemetryCore_t) :
  decodeGeolocateTelemetryCorePacketStructure pPkt = Some base0 ->
  valid_binary 24 128 (tilt base0) = true ->
  (S754_finite false 13176799 (-23) <=f tilt base0) = true ->
  (tilt base0 <=f deg2radf (flit 180 0)) = true ->
  exists r,
    DecodeGeolocateTelemetry pPkt = TRUE r
    /\ cameraDcm r =
       matrixMultiplyf (gimbalDcm r)
         (setDCMBasedOnPanTilt
            (subtractAnglesf (pan base0) (fst (outputShifts base0)))
            (subtractAnglesf (tilt base0 -f deg2radf (flit 360 0))
                             (snd (outputShifts base0))))
    /\ tilt (base r) = tilt base0 -f deg2radf (flit 360 0)
    /\ (fneg (deg2radf (flit 270 0)) <f tilt (base r)) = true
    /\ (tilt (base r) <=f fneg (deg2radf (flit 180 0))) = true.
Proof.
  intros Hdec Hvalid Hlo Hhi.
  destruct (Decode_fields pPkt base0 Hdec) as (r & Hr & Ht & _ & Hc).
  destruct (extended_tilt_window (tilt base0) Hvalid Hlo Hhi)
    as (Hext & Hwrap & Hin & Hbelow & _).
  exists r. split; [exact Hr|]. split; [rewrite Hc, Hext; reflexivity|].
  rewrite Ht, Hwrap. split; [exact Hext|]. split; [exact Hin|exact Hbelow].
Qed.

End TiltFacts.

Lemma C2_tilt_above_90_witness :
  let E := @FlatEarth IEEE754 in
  let pkt := corePacket (A:=IEEE754) (deg2radf (flit 100 0)) fzero in
  @decodeGeolocateTelemetryCorePacketStructure IEEE754 E pkt = Some pkt
  /\ valid_binary 24 128 (tilt pkt) = true
  /\ (@fle IEEE754 (S754_finite false 13176799 (-23)) (tilt pkt)) = true
  /\ (tilt pkt <=f deg2radf (flit 180 0)) = true
  /\ exists r,
       @DecodeGeolocateTelemetry IEEE754 SmallAngle E pkt = TRUE r
       /\ tilt (base r) = tilt pkt -f deg2radf (flit 360 0)
       /\ (fneg (deg2radf (flit 270 0)) <f tilt (base r)) = true
       /\ (tilt (base r) <=f fneg (deg2radf (flit 180 0))) = true.
Proof.
  intros E pkt.
  assert (Hdec : @decodeGeolocateTelemetryCorePacketStructure IEEE754 E pkt = Some pkt)
    by reflexivity.
  assert (Hvalid : valid_binary 24 128 (tilt pkt) = true) by (vm_compute; reflexivity).
  assert (Hlo : (@fle IEEE754 (S754_finite false 13176799 (-23)) (tilt pkt)) = true)
    by (vm_compute; reflexivity).
  assert (Hhi : (tilt pkt <=f deg2radf (flit 180 0)) = true) by (vm_compute; reflexivity).
  split; [exact Hdec|]. split; [exact Hvalid|]. split; [exact Hlo|]. split; [exact Hhi|].
  destruct (@C2_tilt_above_90_is_stored_extended SmallAngle E pkt pkt Hdec Hvalid Hlo Hhi)
    as (r & Hr & _ & Ht & Hin & Hbelow).
  exists r. auto.
Defined.

(** ** Exact arithmetic: the projector and the decoder up to rounding *)

(** Unfold the arithmetic signature at [Exact]. *)
Ltac exact_arith :=
  cbn [float double flit dlit fadd fsub fmul fdiv fneg fsqrt feq flt fle
       dadd dsub dmul ddiv deq dlt dle d2f f2d z2d Exact
       sinf cosf tanf ExactLibm] in *.

(** Turn the decimal literals into quotients of integer numerals. *)
Ltac lit_norm :=
  cbn [ExactR.lit] in *;
  repeat match goal with
  | |- context [IZR (?m * 10 ^ ?e)%Z] =>
      let z := eval vm_compute in (m * 10 ^ e)%Z in
      change (IZR (m * 10 ^ e)%Z) with (IZR z)
  | |- context [Zpos (10 ^ ?p)%positive] =>
      let z := eval vm_compute in (10 ^ p)%positive in
      change (Zpos (10 ^ p)%positive) with (Zpos z)
  | H : context [IZR (?m * 10 ^ ?e)%Z] |- _ =>
      let z := eval vm_compute in (m * 10 ^ e)%Z in
      change (IZR (m * 10 ^ e)%Z) with (IZR z) in H
  | H : context [Zpos (10 ^ ?p)%positive] |- _ =>
      let z := eval vm_compute in (10 ^ p)%positive in
      change (Zpos (10 ^ p)%positive) with (Zpos z) in H
  end.

(** Read an equation between floats or doubles as one between reals. *)
Ltac as_real :=
  match goal with |- @eq _ ?a ?b => change (@eq R a b) end.

Ltac decide_cmp :=
  unfold ExactR.eqb, ExactR.ltb, ExactR.leb in *;
  repeat match goal with
  | |- context [Rlt_dec ?x ?y] => destruct (Rlt_dec x y)
  | |- context [Rle_dec ?x ?y] => destruct (Rle_dec x y)
  | |- context [Req_dec_T ?x ?y] => destruct (Req_dec_T x y)
  end.

Section ExactFacts.
Existing Instance Exact.
Existing Instance ExactLibm.
Context {E : OrionLib}.
Local Open Scope R_scope.

Lemma exact_fzero : @fzero Exact = 0.
Proof. reflexivity. Qed.

Lemma exact_fone : @fone Exact = 1.
Proof. reflexivity. Qed.

Lemma exact_ftwo : @ftwo Exact = 2.
Proof. reflexivity. Qed.




Lemma deg2radf_exact (a : R) :
  deg2radf a = a * (17453292519943295 / 1000000000000000000).
Proof. unfold deg2radf. exact_arith. lit_norm. reflexivity. Qed.

Lemma PIf_exact : @PIf Exact = 314159265358979323846 / 100000000000000000000.
Proof. unfold PIf. exact_arith. lit_norm. reflexivity. Qed.

Lemma exact_lit_int (m : Z) : ExactR.lit m 0 = IZR m.
Proof. unfold ExactR.lit. now rewrite Z.pow_0_r, Z.mul_1_r. Qed.

Lemma extendedTilt_above (t : R) :
  deg2radf (flit 90 0) < t -> extendedTilt t = t - deg2radf (flit 360 0).
Proof.
  intros Ht. unfold extendedTilt. exact_arith. unfold ExactR.ltb.
  destruct (Rlt_dec _ t); [reflexivity|contradiction].
Qed.

Lemma extendedTilt_zero : extendedTilt 0 = 0.
Proof.
  unfold extendedTilt. rewrite deg2radf_exact. exact_arith.
  rewrite exact_lit_int. unfold ExactR.ltb.
  destruct (Rlt_dec _ 0); [lra|reflexivity].
Qed.

Lemma wrapAngle90f_extended (x : R) :
  - deg2radf (flit 270 0) < x <= deg2radf (flit 90 0) -> wrapAngle90f x = x.
Proof.
  intros Hx. unfold wrapAngle90f. exact_arith. unfold ExactR.ltb, ExactR.leb.
  destruct (Rlt_dec _ x); [lra|].
  destruct (Rle_dec x _); [lra|reflexivity].
Qed.

Lemma subtractAnglesf_zero : subtractAnglesf 0 0 = 0.
Proof.
  unfold subtractAnglesf, wrapAnglef. rewrite PIf_exact. exact_arith.
  unfold ExactR.ltb, ExactR.leb.
  destruct (Rlt_dec _ (0 - 0)); [lra|].
  destruct (Rle_dec (0 - 0) _); [lra|]. as_real. lra.
Qed.

Lemma setDCMBasedOnPanTilt_zero : setDCMBasedOnPanTilt 0 0 = identityDcm.
Proof.
  unfold setDCMBasedOnPanTilt, identityDcm. exact_arith.
  rewrite exact_fzero, exact_fone, cos_0, sin_0.
  repeat f_equal; as_real; lra.
Qed.

Lemma matrixMultiplyf_identity (G : DCM_t) : matrixMultiplyf G identityDcm = G.
Proof.
  destruct G as [[a b c] [d e f] [g h i]].
  unfold matrixMultiplyf, identityDcm, column, dcmGet, dot3.
  cbn [at3 c0 c1 c2]. rewrite exact_fzero, exact_fone. exact_arith.
  repeat f_equal; as_real; ring.
Qed.

(** C9 (amended). In exact arithmetic: for every packet that decodes to a
    core record with pan = 0, tilt = 0, both output shifts 0 and the
    identity gimbal quaternion, the decoder produces a record whose camera
    rotation equals its gimbal rotation. *)
Theorem C9_camera_equals_gimbal_without_shifts
    (pPkt : OrionPkt_t) (base0 : GeolocateTelemetryCore_t) :
  decodeGeolocateTelemetryCorePacketStructure pPkt = Some base0 ->
  pan base0 = fzero ->
  tilt base0 = fzero ->
  outputShifts base0 = (fzero, fzero) ->
  gimbalQuat base0 = identityQuat ->
  exists r,
    DecodeGeolocateTelemetry pPkt = TRUE r
    /\ gimbalDcm r = quaternionToDCM identityQuat
    /\ cameraDcm r = gimbalDcm r.
Proof.
  intros Hdec Hpan Htilt Hshift Hquat.
  destruct (Decode_fields pPkt base0 Hdec) as (r & Hr & _ & Hg & Hc).
  exists r. split; [exact Hr|]. split; [now rewrite Hg, Hquat|].
  rewrite Hc, Hpan, Htilt, Hshift. cbn [fst snd].
  rewrite exact_fzero, extendedTilt_zero, subtractAnglesf_zero.
  rewrite setDCMBasedOnPanTilt_zero.
  apply matrixMultiplyf_identity.
Qed.

(** In exact arithmetic: for every packet that decodes to a core record
    whose tilt is above 90 degrees (and at most 180), the tilt stored in
    the record is the tilt less 360 degrees, in (-270, -180] degrees. *)
Lemma tilt_above_90_exact
    (pPkt : OrionPkt_t) (base0 : GeolocateTelemetryCore_t) :
  decodeGeolocateTelemetryCorePacketStructure pPkt = Some base0 ->
  deg2radf (flit 90 0) < tilt base0 ->
  tilt base0 <= deg2radf (flit 180 0) ->
  exists r,
    DecodeGeolocateTelemetry pPkt = TRUE r
    /\ cameraDcm r =
       matrixMultiplyf (gimbalDcm r)
         (setDCMBasedOnPanTilt
            (subtractAnglesf (pan base0) (fst (outputShifts base0)))
            (subtractAnglesf (tilt base0 - deg2radf (flit 360 0))
                             (snd (outputShifts base0))))
    /\ tilt (base r) = tilt base0 - deg2radf (flit 360 0)
    /\ - deg2radf (flit 270 0) < tilt (base r) <= - deg2radf (flit 180 0).
Proof.
  intros Hdec Hlo Hhi.
  destruct (Decode_fields pPkt base0 Hdec) as (r & Hr & Ht & _ & Hc).
  rewrite (extendedTilt_above _ Hlo) in Ht, Hc.
  assert (Hrange : - deg2radf (flit 270 0) < tilt base0 - deg2radf (flit 360 0)
                   <= - deg2radf (flit 180 0)).
  { rewrite !deg2radf_exact in *. exact_arith. rewrite !exact_lit_int in *. lra. }
  rewrite wrapAngle90f_extended in Ht.
  2:{ rewrite !deg2radf_exact in *. exact_arith. rewrite !exact_lit_int in *. lra. }
  exists r. split; [exact Hr|]. split; [exact Hc|]. split; [exact Ht|].
  rewrite Ht. exact Hrange.
Qed.

(** A pan output shift of one radian, with pan = 0, tilt = 0 and the
    identity gimbal quaternion: the camera rotation is the gimbal rotation
    turned by minus one radian about the vertical axis. *)
Lemma decode_with_pan_shift (pPkt : OrionPkt_t) (base0 : GeolocateTelemetryCore_t) :
  decodeGeolocateTelemetryCorePacketStructure pPkt = Some base0 ->
  pan base0 = fzero ->
  gimbalQuat base0 = identityQuat ->
  fst (outputShifts base0) = fone ->
  exists r,
    DecodeGeolocateTelemetry pPkt = TRUE r
    /\ dcmGet (gimbalDcm r) I0 I1 = 0
    /\ dcmGet (cameraDcm r) I0 I1 = sin 1
    /\ cameraDcm r <> gimbalDcm r.
Proof.
  intros Hdec Hp Hq Hs.
  destruct (Decode_fields pPkt base0 Hdec) as (r & Hr & _ & Hg & Hc).
  assert (Hpan : subtractAnglesf (pan base0) (fst (outputShifts base0)) = Ropp 1).
  { rewrite Hp, Hs. unfold subtractAnglesf, wrapAnglef.
    rewrite PIf_exact, exact_fzero, exact_fone, exact_ftwo. exact_arith.
    decide_cmp; as_real; lra. }
  assert (Hg01 : dcmGet (gimbalDcm r) I0 I1 = 0).
  { rewrite Hg, Hq. cbn. lit_norm. as_real. ring. }
  assert (Hc01 : dcmGet (cameraDcm r) I0 I1 = sin 1).
  { rewrite Hc, Hpan, Hg, Hq. cbn. lit_norm. rewrite sin_neg. as_real. ring. }
  exists r. repeat split; try assumption.
  intros Heq. rewrite Heq, Hg01 in Hc01.
  assert (0 < sin 1) by (apply sin_gt_0; pose proof PI2_1; lra).
  lra.
Qed.

(** An input tilt of 100 degrees is stored as -260 degrees. *)
Lemma decode_with_tilt_100 (pPkt : OrionPkt_t) (base0 : GeolocateTelemetryCore_t) :
  decodeGeolocateTelemetryCorePacketStructure pPkt = Some base0 ->
  tilt base0 = deg2radf (flit 100 0) ->
  exists r,
    DecodeGeolocateTelemetry pPkt = TRUE r
    /\ tilt (base r) = deg2radf (flit 100 0) - deg2radf (flit 360 0)
    /\ tilt (base r) <= - PIf
    /\ ~ (- deg2radf (flit 180 0) < tilt (base r) <= deg2radf (flit 180 0)).
Proof.
  intros Hdec Htilt.
  assert (Hlo : deg2radf (flit 90 0) < tilt base0).
  { rewrite Htilt, !deg2radf_exact. exact_arith. rewrite !exact_lit_int. lra. }
  destruct (Decode_fields pPkt base0 Hdec) as (r & Hr & Ht & _ & _).
  rewrite (extendedTilt_above _ Hlo), Htilt in Ht.
  rewrite wrapAngle90f_extended in Ht.
  2:{ rewrite !deg2radf_exact. exact_arith. rewrite !exact_lit_int. lra. }
  exists r. split; [exact Hr|]. split; [exact Ht|].
  rewrite Ht, PIf_exact, !deg2radf_exact. exact_arith. rewrite !exact_lit_int.
  split; [lra|]. intros [Hl _]. lra.
Qed.

End ExactFacts.

(** ** Runs in exact arithmetic *)





Lemma C9_camera_equals_gimbal_witness :
  let E := @FlatEarth Exact in
  let pkt := corePacket (A:=Exact) fzero fzero in
  @decodeGeolocateTelemetryCorePacketStructure Exact E pkt = Some pkt
  /\ pan pkt = fzero /\ tilt pkt = fzero
  /\ outputShifts pkt = (fzero, fzero)
  /\ gimbalQuat pkt = identityQuat
  /\ exists r,
       @DecodeGeolocateTelemetry Exact ExactLibm E pkt = TRUE r
       /\ gimbalDcm r = quaternionToDCM identityQuat
       /\ cameraDcm r = gimbalDcm r.
Proof.
  intros E pkt. repeat (split; [reflexivity|]).
  apply (@C9_camera_equals_gimbal_without_shifts E pkt pkt); reflexivity.
Defined.

(** C9 as stated fails: with pan = 0, tilt = 0 and the identity gimbal
    quaternion, but a pan output shift of one radian, the camera rotation
    of the decoded record differs from its gimbal rotation (entry (0,1) is
    sin 1 in the one and 0 in the other).  The earth model plays no part in
    the two rotations. *)
Lemma C9_shifted_camera_differs :
  let E := @FlatEarth Exact in
  let pkt := corePacket (A:=Exact) fzero fone in
  @decodeGeolocateTelemetryCorePacketStructure Exact E pkt = Some pkt
  /\ pan pkt = fzero /\ tilt pkt = fzero
  /\ gimbalQuat pkt = identityQuat
  /\ exists r,
       @DecodeGeolocateTelemetry Exact ExactLibm E pkt = TRUE r
       /\ dcmGet (gimbalDcm r) I0 I1 = 0%R
       /\ dcmGet (cameraDcm r) I0 I1 = sin 1
       /\ cameraDcm r <> gimbalDcm r.
Proof.
  intros E pkt. repeat (split; [reflexivity|]).
  apply (@decode_with_pan_shift E pkt pkt); reflexivity.
Qed.

(** C2 as stated fails: an input tilt of 100 degrees is stored as -260
    degrees, below -180 degrees (and below -pi), and so outside
    (-180, 180]; the same value comes out of the tilt computation in IEEE
    single precision (-4.537856 radians). *)
Lemma C2_stored_tilt_is_not_compact :
  (let E := @FlatEarth Exact in
   let pkt := corePacket (A:=Exact) (deg2radf (flit 100 0)) fzero in
   @decodeGeolocateTelemetryCorePacketStructure Exact E pkt = Some pkt
   /\ (@deg2radf Exact (flit 90 0) < tilt pkt)%R
   /\ exists r,
        @DecodeGeolocateTelemetry Exact ExactLibm E pkt = TRUE r
        /\ tilt (base r) = (@deg2radf Exact (flit 100 0) - @deg2radf Exact (flit 360 0))%R
        /\ (tilt (base r) <= - @PIf Exact)%R
        /\ ~ (- @deg2radf Exact (flit 180 0) < tilt (base r) <= @deg2radf Exact (flit 180 0))%R)
  /\ (let stored := @wrapAngle90f IEEE754 (extendedTilt (deg2radf (flit 100 0))) in
      stored = S754_finite true 9516574 (-21)
      /\ (stored <=f fneg (@PIf IEEE754)) = true
      /\ (fneg (@deg2radf IEEE754 (flit 180 0)) <f stored) = false).
Proof.
  split.
  - intros E pkt. split; [reflexivity|]. split.
    + cbn [pkt corePacket tilt]. rewrite !deg2radf_exact. exact_arith.
      rewrite !exact_lit_int. lra.
    + apply (@decode_with_tilt_100 E pkt pkt); reflexivity.
  - intros stored. repeat split; vm_compute; reflexivity.
Qed.

(** * Further properties of the code *)

(** ** The history buffer: what a push changes and what it keeps *)

Section BufferMore.
Context {A : Arith}.
Variable N : Z.

Lemma mod_inj_close (a b : Z) :
  0 < N -> - N < a - b < N -> a mod N = b mod N -> a = b.
Proof.
  intros HN Hclose Heq.
  assert (H0 : (a - b) mod N = 0).
  { rewrite Zminus_mod, Heq, Z.sub_diag. now apply Z.mod_0_l; lia. }
  apply Z.mod_divide in H0; [|lia]. destruct H0 as [q Hq].
  assert (q = 0) by nia. lia.
Qed.

(** A push writes the slot under the cursor and no other. *)
Lemma push_other_slots (buf buf' : GeolocateBuffer_t) (geo : GeolocateTelemetry_t) (i : Z) :
  buffer_wf N buf ->
  pushGeolocateBuffer N buf geo = Some buf' ->
  i <> buf_in buf ->
  geobufAt N buf' i = geobufAt N buf i.
Proof.
  intros (Hlen & Hin & Hhold) Hpush Hi.
  rewrite push_eq in Hpush by lia. injection Hpush as <-.
  unfold geobufAt. cbn [geobuf].
  destruct ((0 <=? i) && (i <? N)) eqn:Hrange; [|reflexivity].
  apply andb_prop in Hrange as [H0 H1].
  apply Z.leb_le in H0. apply Z.ltb_lt in H1.
  apply list_lookup_insert_ne. lia.
Qed.

Lemma push_cursor_slot (buf buf' : GeolocateBuffer_t) (geo : GeolocateTelemetry_t) :
  buffer_wf N buf ->
  pushGeolocateBuffer N buf geo = Some buf' ->
  geobufAt N buf' (buf_in buf) = Some geo.
Proof.
  intros (Hlen & Hin & Hhold) Hpush.
  rewrite push_eq in Hpush by lia. injection Hpush as <-.
  rewrite geobufAt_lookup by lia. cbn [geobuf].
  apply list_lookup_insert_eq. lia.
Qed.

(** A sequence of pushes keeps every slot it does not pass over. *)
Lemma pushAll_other_slots (l : list GeolocateTelemetry_t) :
  forall (buf buf' : GeolocateBuffer_t) (i : Z),
  buffer_wf N buf ->
  pushAll N buf l = Some buf' ->
  (forall m, 0 <= m < Z.of_nat (length l) -> (buf_in buf + m) mod N <> i) ->
  geobufAt N buf' i = geobufAt N buf i.
Proof.
  induction l as [|geo l IH]; intros buf buf' i Hwf Hall Hfree.
  - cbn in Hall. now injection Hall as <-.
  - cbn [pushAll] in Hall.
    destruct (push_spec N buf geo Hwf) as (b1 & Hpush & Hwf1 & Hin1 & _ & _).
    rewrite Hpush in Hall.
    assert (HN : 0 < N) by (destruct Hwf as (_ & ? & _); lia).
    rewrite (IH b1 buf' i Hwf1 Hall).
    + apply (push_other_slots buf b1 geo i Hwf Hpush).
      intros ->. apply (Hfree 0); [rewrite length_cons; lia|].
      rewrite Z.add_0_r. destruct Hwf as (_ & ? & _). now apply Z.mod_small.
    + intros m Hm. rewrite Hin1, Zplus_mod_idemp_l.
      replace (buf_in buf + 1 + m) with (buf_in buf + (m + 1)) by lia.
      apply Hfree. rewrite length_cons. lia.
Qed.

(** The slot of the [j]-th record behind the last one pushed, after a
    sequence of pushes. *)
Lemma pushAll_order (l : list GeolocateTelemetry_t) :
  forall (buf buf' : GeolocateBuffer_t) (j : nat),
  buffer_wf N buf ->
  pushAll N buf l = Some buf' ->
  (j < length l)%nat -> Z.of_nat j < N ->
  geobufAt N buf' ((buf_in buf + Z.of_nat (length l) - 1 - Z.of_nat j) mod N)
  = l !! (length l - 1 - j)%nat.
Proof.
  induction l as [|geo l IH]; intros buf buf' j Hwf Hall Hj HjN.
  - cbn in Hj. lia.
  - assert (HN : 0 < N) by (destruct Hwf as (_ & ? & _); lia).
    cbn [pushAll] in Hall.
    destruct (push_spec N buf geo Hwf) as (b1 & Hpush & Hwf1 & Hin1 & _ & _).
    rewrite Hpush in Hall. rewrite length_cons in *.
    destruct (Nat.eq_dec j (length l)) as [->|Hne].
    + replace (S (length l) - 1 - length l)%nat with 0%nat by lia.
      transitivity (Some geo); [|reflexivity].
      replace (buf_in buf + Z.of_nat (S (length l)) - 1 - Z.of_nat (length l))
        with (buf_in buf) by lia.
      pose proof Hwf as (Hlen & Hin & Hhold).
      rewrite Z.mod_small by lia.
      rewrite (pushAll_other_slots l b1 buf' (buf_in buf) Hwf1 Hall).
      * apply (push_cursor_slot buf b1 geo Hwf Hpush).
      * intros m Hm Heq. rewrite Hin1, Zplus_mod_idemp_l in Heq.
        rewrite <- (Z.mod_small (buf_in buf) N) in Heq at 2 by lia.
        apply mod_inj_close in Heq; lia.
    + replace (S (length l) - 1 - j)%nat with (S (length l - 1 - j))%nat by lia.
      transitivity (l !! (length l - 1 - j)%nat); [|reflexivity].
      rewrite <- (IH b1 buf' j Hwf1 Hall) by lia.
      f_equal. rewrite Hin1.
      replace ((buf_in buf + 1) mod N + Z.of_nat (length l) - 1 - Z.of_nat j)
        with ((buf_in buf + 1) mod N + (Z.of_nat (length l) - 1 - Z.of_nat j)) by lia.
      rewrite Zplus_mod_idemp_l. f_equal. lia.
Qed.

End BufferMore.

Section BufferMore2.
Context {A : Arith}.
Variable N : Z.

Lemma newestIndex_mod (buf : GeolocateBuffer_t) :
  0 <= buf_in buf < N -> newestIndex N buf = (buf_in buf - 1) mod N.
Proof.
  intros Hin. unfold newestIndex. destruct (Z.ltb_spec (buf_in buf - 1) 0).
  - replace (buf_in buf - 1) with (-1) by lia.
    replace (-1) with (N - 1 + (-1) * N) at 2 by lia.
    rewrite Z.mod_add, Z.mod_small; lia.
  - rewrite Z.mod_small; lia.
Qed.

Lemma oldestIndex_mod (buf : GeolocateBuffer_t) :
  0 <= buf_in buf < N -> 1 <= holding buf <= N ->
  oldestIndex N buf = (newestIndex N buf - (holding buf - 1)) mod N.
Proof.
  intros Hin Hh. pose proof (newestIndex_range N buf Hin) as Hnew.
  unfold oldestIndex. destruct (Z.ltb_spec (newestIndex N buf - (holding buf - 1)) 0).
  - replace (newestIndex N buf - (holding buf - 1))
      with (newestIndex N buf - (holding buf - 1) + N + (-1) * N) at 2 by lia.
    rewrite Z.mod_add, Z.mod_small; lia.
  - rewrite Z.mod_small; lia.
Qed.

End BufferMore2.

(** X1. A push into a well-formed buffer is defined and leaves a
    well-formed buffer: the cursor advances by one and wraps at the
    capacity, the count grows by one up to the capacity. *)
Theorem X1_push_keeps_the_buffer_well_formed
    {A : Arith} (N : Z) (buf : GeolocateBuffer_t) (geo : GeolocateTelemetry_t) :
  buffer_wf N buf ->
  exists buf',
    pushGeolocateBuffer N buf geo = Some buf'
    /\ buffer_wf N buf'
    /\ buf_in buf' = (if buf_in buf + 1 =? N then 0 else buf_in buf + 1)
    /\ holding buf' = (if holding buf =? N then N else holding buf + 1).
Proof.
  intros Hwf.
  destruct (push_spec N buf geo Hwf) as (buf' & Hpush & Hwf' & Hin & Hh & _).
  destruct Hwf as (Hlen & Hrange & Hhold).
  exists buf'. repeat split; try apply Hwf'; try assumption.
  - rewrite Hin. destruct (Z.eqb_spec (buf_in buf + 1) N) as [->|Hne].
    + apply Z.mod_same. lia.
    + apply Z.mod_small. lia.
  - rewrite Hh. destruct (Z.eqb_spec (holding buf) N); lia.
Qed.

Lemma X1_push_keeps_the_buffer_well_formed_witness :
  let buf := {| geobuf := replicate 3 (sample (A:=IEEE754) 0 identityDcm zeroVecf);
                buf_in := 2; holding := 2 |} in
  let geo := sample (A:=IEEE754) 9 identityDcm zeroVecf in
  buffer_wf 3 buf
  /\ exists buf',
       pushGeolocateBuffer 3 buf geo = Some buf'
       /\ buffer_wf 3 buf'
       /\ buf_in buf' = 0 /\ holding buf' = 3.
Proof.
  intros buf geo.
  assert (Hwf : buffer_wf 3 buf) by (repeat split; cbn; lia).
  split; [exact Hwf|].
  destruct (X1_push_keeps_the_buffer_well_formed 3 buf geo Hwf)
    as (buf' & Hpush & Hwf' & Hin & Hh).
  exists buf'. auto.
Defined.

(** X2. A push writes the record into the slot under the cursor and
    changes no other slot of the array. *)
Theorem X2_push_writes_only_the_cursor_slot
    {A : Arith} (N : Z) (buf buf' : GeolocateBuffer_t) (geo : GeolocateTelemetry_t) :
  buffer_wf N buf ->
  pushGeolocateBuffer N buf geo = Some buf' ->
  geobufAt N buf' (buf_in buf) = Some geo
  /\ forall i, i <> buf_in buf -> geobufAt N buf' i = geobufAt N buf i.
Proof.
  intros Hwf Hpush. split.
  - exact (push_cursor_slot N buf buf' geo Hwf Hpush).
  - intros i Hi. exact (push_other_slots N buf buf' geo i Hwf Hpush Hi).
Qed.

Lemma X2_push_writes_only_the_cursor_slot_witness :
  let old := sample (A:=IEEE754) 5 identityDcm zeroVecf in
  let buf := {| geobuf := replicate 3 old; buf_in := 1; holding := 3 |} in
  let geo := sample (A:=IEEE754) 9 identityDcm zeroVecf in
  let buf' := {| geobuf := [old; geo; old]; buf_in := 2; holding := 3 |} in
  buffer_wf 3 buf
  /\ pushGeolocateBuffer 3 buf geo = Some buf'
  /\ geobufAt 3 buf' 1 = Some geo
  /\ geobufAt 3 buf' 0 = geobufAt 3 buf 0
  /\ geobufAt 3 buf' 2 = geobufAt 3 buf 2.
Proof.
  intros old buf geo buf'.
  assert (Hwf : buffer_wf 3 buf) by (repeat split; cbn; lia).
  assert (Hpush : pushGeolocateBuffer 3 buf geo = Some buf') by reflexivity.
  destruct (X2_push_writes_only_the_cursor_slot 3 buf buf' geo Hwf Hpush) as [Hc Ho].
  split; [exact Hwf|]. split; [exact Hpush|]. split; [exact Hc|].
  split; apply Ho; cbn; lia.
Defined.

(** X3. After a sequence of pushes into a well-formed buffer, the record
    pushed [j] pushes before the last one sits [j] slots behind the newest
    entry (wrapping), for every [j] below the number of pushes and below
    the capacity: the buffer holds the most recent records in order. *)
Theorem X3_pushes_keep_the_most_recent_records_in_order
    {A : Arith} (N : Z) (buf buf' : GeolocateBuffer_t)
    (l : list GeolocateTelemetry_t) (j : nat) :
  buffer_wf N buf ->
  pushAll N buf l = Some buf' ->
  (j < length l)%nat -> Z.of_nat j < N ->
  geobufAt N buf' (slotBack N buf' (Z.of_nat j)) = l !! (length l - 1 - j)%nat.
Proof.
  intros Hwf Hall Hj HjN.
  destruct (pushAll_spec N l buf Hwf) as (b & Hall' & Hwf' & Hin & _).
  rewrite Hall in Hall'. injection Hall' as <-.
  rewrite <- (pushAll_order N l buf buf' j Hwf Hall Hj HjN).
  f_equal. unfold slotBack.
  rewrite newestIndex_mod by apply Hwf'.
  rewrite Hin, Zminus_mod_idemp_l.
  replace ((buf_in buf + Z.of_nat (length l)) mod N - 1 - Z.of_nat j)
    with ((buf_in buf + Z.of_nat (length l)) mod N - (1 + Z.of_nat j)) by lia.
  rewrite Zminus_mod_idemp_l. f_equal. lia.
Qed.

Lemma X3_pushes_keep_the_most_recent_records_in_order_witness :
  let s t := sample (A:=IEEE754) t identityDcm zeroVecf in
  let l := [s 10; s 20; s 30; s 40; s 50] in
  let buf' := {| geobuf := [s 40; s 50; s 30]; buf_in := 2; holding := 3 |} in
  buffer_wf 3 (emptyBuffer (A:=IEEE754) 3)
  /\ pushAll 3 (emptyBuffer 3) l = Some buf'
  /\ geobufAt 3 buf' (slotBack 3 buf' 0) = Some (s 50)
  /\ geobufAt 3 buf' (slotBack 3 buf' 1) = Some (s 40)
  /\ geobufAt 3 buf' (slotBack 3 buf' 2) = Some (s 30).
Proof.
  intros s l buf'.
  assert (Hwf : buffer_wf 3 (emptyBuffer (A:=IEEE754) 3)) by (repeat split; cbn; lia).
  assert (Hall : pushAll 3 (emptyBuffer 3) l = Some buf') by reflexivity.
  split; [exact Hwf|]. split; [exact Hall|].
  split; [|split].
  - apply (X3_pushes_keep_the_most_recent_records_in_order 3 _ buf' l 0 Hwf Hall); cbn; lia.
  - apply (X3_pushes_keep_the_most_recent_records_in_order 3 _ buf' l 1 Hwf Hall); cbn; lia.
  - apply (X3_pushes_keep_the_most_recent_records_in_order 3 _ buf' l 2 Hwf Hall); cbn; lia.
Defined.

(** X4. When the buffer is full, the cursor points at the oldest entry
    (the one the next push overwrites). *)
Theorem X4_cursor_is_the_oldest_entry_when_full
    {A : Arith} (N : Z) (buf : GeolocateBuffer_t) :
  buffer_wf N buf -> holding buf = N -> oldestIndex N buf = buf_in buf.
Proof.
  intros (Hlen & Hin & Hhold) Hfull.
  unfold oldestIndex, newestIndex. rewrite Hfull.
  destruct (Z.ltb_spec (buf_in buf - 1) 0);
    match goal with |- context [?x <? 0] => destruct (Z.ltb_spec x 0) end; lia.
Qed.

Lemma X4_cursor_is_the_oldest_entry_when_full_witness :
  let buf := {| geobuf := replicate 3 (sample (A:=IEEE754) 0 identityDcm zeroVecf);
                buf_in := 2; holding := 3 |} in
  buffer_wf 3 buf /\ holding buf = 3 /\ oldestIndex 3 buf = 2.
Proof.
  intros buf.
  assert (Hwf : buffer_wf 3 buf) by (repeat split; cbn; lia).
  split; [exact Hwf|]. split; [reflexivity|].
  exact (X4_cursor_is_the_oldest_entry_when_full 3 buf Hwf eq_refl).
Defined.

(** ** The angular rate query: which entry it uses *)

Section SearchFacts.
Context {A : Arith}.
Variable N : Z.

Lemma slotBack_range (buf : GeolocateBuffer_t) (j : Z) :
  0 < N -> 0 <= slotBack N buf j < N.
Proof. intros HN. unfold slotBack. apply Z.mod_pos_bound. lia. Qed.

Lemma stepBack_mod (i : Z) : 0 <= i < N -> stepBack N i = (i - 1) mod N.
Proof.
  intros Hi. unfold stepBack. destruct (Z.ltb_spec (i - 1) 0).
  - replace (i - 1) with (N - 1 + (-1) * N) at 2 by lia.
    rewrite Z.mod_add, Z.mod_small; lia.
  - rewrite Z.mod_small; lia.
Qed.

Lemma slotBack_step (buf : GeolocateBuffer_t) (j : Z) :
  0 < N -> stepBack N (slotBack N buf j) = slotBack N buf (j + 1).
Proof.
  intros HN. rewrite stepBack_mod by now apply slotBack_range.
  unfold slotBack. rewrite Zminus_mod_idemp_l. f_equal. lia.
Qed.

Lemma slotBack_first (buf : GeolocateBuffer_t) :
  0 <= buf_in buf < N -> stepBack N (newestIndex N buf) = slotBack N buf 1.
Proof.
  intros Hin. rewrite stepBack_mod by now apply newestIndex_range. reflexivity.
Qed.

Lemma slotBack_inj (buf : GeolocateBuffer_t) (j j' : Z) :
  0 < N -> - N < j - j' < N -> slotBack N buf j = slotBack N buf j' -> j = j'.
Proof.
  intros HN Hclose Heq. unfold slotBack in Heq.
  apply mod_inj_close in Heq; lia.
Qed.

(** Entries that do not pass the test are stepped over, as long as the
    oldest entry is not reached. *)
Lemma losLoop_skip (buf : GeolocateBuffer_t) (dt : Z) (m : nat) :
  buffer_wf N buf -> 1 <= holding buf ->
  forall (j : Z) (fuel : nat),
  1 <= j -> j + Z.of_nat m <= holding buf - 1 ->
  (forall i, j <= i < j + Z.of_nat m -> passesAt N buf dt i = Some false) ->
  losLoop N (m + fuel) buf dt (newestIndex N buf) (oldestIndex N buf) (slotBack N buf j)
  = losLoop N fuel buf dt (newestIndex N buf) (oldestIndex N buf)
      (slotBack N buf (j + Z.of_nat m)).
Proof.
  intros Hwf Hh. pose proof Hwf as (Hlen & Hin & Hhold).
  induction m as [|m IH]; intros j fuel Hj Hjm Hfail.
  - cbn [Nat.add]. now rewrite Z.add_0_r.
  - cbn [Nat.add losLoop].
    rewrite (oldestIndex_mod N buf Hin) at 1 by lia.
    fold (slotBack N buf (holding buf - 1)).
    destruct (Z.eqb_spec (slotBack N buf j) (slotBack N buf (holding buf - 1))) as [Heq|_].
    { apply slotBack_inj in Heq; lia. }
    cbn [negb].
    assert (Hpass : passesAt N buf dt j = Some false) by (apply Hfail; lia).
    unfold passesAt in Hpass.
    destruct (geobufAt N buf (newestIndex N buf)) as [gn|]; [|discriminate].
    destruct (geobufAt N buf (slotBack N buf j)) as [gi|]; [|discriminate].
    cbn in Hpass |- *. injection Hpass as ->.
    rewrite slotBack_step by lia.
    rewrite IH by (try lia; intros i Hi; apply Hfail; lia).
    f_equal. f_equal. lia.
Qed.

(** The search of lines 355-396 stops at the first entry behind the newest
    one that passes the test, provided it is not the oldest entry held. *)
Lemma rate_query_first_passing (buf : GeolocateBuffer_t) (dt k : Z) :
  buffer_wf N buf ->
  1 <= k <= holding buf - 2 ->
  (forall i, 1 <= i < k -> passesAt N buf dt i = Some false) ->
  passesAt N buf dt k = Some true ->
  exists gn gi,
    geobufAt N buf (newestIndex N buf) = Some gn
    /\ geobufAt N buf (slotBack N buf k) = Some gi
    /\ getLOSAngularRate N buf dt = Some (TRUE (ratesBetween gi gn (timeDiff gn gi))).
Proof.
  intros Hwf Hk Hfail Hpass. pose proof Hwf as (Hlen & Hin & Hhold).
  unfold passesAt in Hpass.
  destruct (geobufAt N buf (newestIndex N buf)) as [gn|] eqn:Hgn; [|discriminate].
  destruct (geobufAt N buf (slotBack N buf k)) as [gi|] eqn:Hgi; [|discriminate].
  cbn in Hpass. injection Hpass as Hpass.
  exists gn, gi. split; [reflexivity|]. split; [reflexivity|].
  unfold getLOSAngularRate. destruct (Z.ltb_spec (holding buf) 2); [lia|].
  rewrite slotBack_first by assumption.
  replace (S (Z.to_nat N)) with (Z.to_nat (k - 1) + S (Z.to_nat N - Z.to_nat (k - 1)))%nat by lia.
  rewrite losLoop_skip; try assumption; try lia.
  2:{ intros i Hi. apply Hfail. lia. }
  replace (1 + Z.of_nat (Z.to_nat (k - 1))) with k by lia.
  cbn [losLoop]. rewrite (oldestIndex_mod N buf Hin) by lia.
  fold (slotBack N buf (holding buf - 1)).
  destruct (Z.eqb_spec (slotBack N buf k) (slotBack N buf (holding buf - 1))) as [Heq|_].
  { apply slotBack_inj in Heq; lia. }
  cbn [negb]. rewrite Hgn, Hgi. cbn. now rewrite Hpass.
Qed.

End SearchFacts.

(** X5. On a well-formed buffer the angular rate query reads only slots of
    the array and its loop ends before every slot has been visited twice:
    the query returns TRUE or FALSE. *)
Theorem X5_rate_query_returns_on_a_well_formed_buffer
    {A : Arith} (N : Z) (buf : GeolocateBuffer_t) (dt : Z) :
  buffer_wf N buf ->
  exists r, getLOSAngularRate N buf dt = Some r.
Proof. intros Hwf. now apply getLOSAngularRate_defined. Qed.

Lemma X5_rate_query_returns_witness :
  let s t := sample (A:=IEEE754) t identityDcm zeroVecf in
  let buf := {| geobuf := [s 0; s 100; s 200]; buf_in := 0; holding := 3 |} in
  buffer_wf 3 buf /\ exists r, getLOSAngularRate 3 buf 500 = Some r.
Proof.
  intros s buf.
  assert (Hwf : buffer_wf 3 buf) by (repeat split; cbn; lia).
  split; [exact Hwf|].
  exact (X5_rate_query_returns_on_a_well_formed_buffer 3 buf 500 Hwf).
Defined.

(** X6. The angular rate query returns TRUE only when at least three
    entries are held. *)
Theorem X6_rates_need_three_entries
    {A : Arith} (N : Z) (buf : GeolocateBuffer_t) (dt : Z) (rates : vec3 float) :
  getLOSAngularRate N buf dt = Some (TRUE rates) -> 3 <= holding buf.
Proof.
  intros Hrate.
  destruct (Z.lt_ge_cases (holding buf) 2) as [Hlt|Hge].
  - rewrite getLOSAngularRate_short in Hrate by assumption. discriminate.
  - destruct (Z.eq_dec (holding buf) 2) as [H2|Hne]; [|lia].
    rewrite getLOSAngularRate_two in Hrate by assumption. discriminate.
Qed.

Lemma X6_rates_need_three_entries_witness :
  let s t := sample (A:=IEEE754) t identityDcm zeroVecf in
  let buf := {| geobuf := [s 0; s 500; s 1000]; buf_in := 0; holding := 3 |} in
  getLOSAngularRate 3 buf 500 = Some (TRUE zeroVecf) /\ 3 <= holding buf.
Proof.
  intros s buf.
  assert (Hrate : getLOSAngularRate 3 buf 500 = Some (TRUE zeroVecf)) by reflexivity.
  split; [exact Hrate|].
  exact (X6_rates_need_three_entries 3 buf 500 zeroVecf Hrate).
Defined.

(** X7. On a well-formed buffer, if the entry [k] behind the newest one
    passes the test on the time difference, is not the oldest entry held,
    and no entry between it and the newest passes, then the query returns
    TRUE with the rates between that entry and the newest. *)
Theorem X7_first_entry_old_enough_gives_the_rates
    {A : Arith} (N : Z) (buf : GeolocateBuffer_t) (dt k : Z) :
  buffer_wf N buf ->
  1 <= k <= holding buf - 2 ->
  (forall i, 1 <= i < k -> passesAt N buf dt i = Some false) ->
  passesAt N buf dt k = Some true ->
  exists gn gi,
    geobufAt N buf (newestIndex N buf) = Some gn
    /\ geobufAt N buf (slotBack N buf k) = Some gi
    /\ getLOSAngularRate N buf dt = Some (TRUE (ratesBetween gi gn (timeDiff gn gi))).
Proof. apply rate_query_first_passing. Qed.

Lemma X7_first_entry_old_enough_witness :
  let s t := sample (A:=IEEE754) t identityDcm zeroVecf in
  let buf := {| geobuf := [s 300; s 600; s 900; s 0]; buf_in := 3; holding := 4 |} in
  buffer_wf 4 buf
  /\ 1 <= 2 <= holding buf - 2
  /\ passesAt 4 buf 500 1 = Some false
  /\ passesAt 4 buf 500 2 = Some true
  /\ getLOSAngularRate 4 buf 500 = Some (TRUE (ratesBetween (s 300) (s 900) 600)).
Proof.
  intros s buf.
  assert (Hwf : buffer_wf 4 buf) by (repeat split; cbn; lia).
  assert (Hk : 1 <= 2 <= holding buf - 2) by (cbn; lia).
  assert (Hfail : forall i, 1 <= i < 2 -> passesAt 4 buf 500 i = Some false).
  { intros i Hi. replace i with 1 by lia. reflexivity. }
  assert (Hpass : passesAt 4 buf 500 2 = Some true) by reflexivity.
  split; [exact Hwf|]. split; [exact Hk|]. split; [apply Hfail; lia|]. split; [exact Hpass|].
  destruct (X7_first_entry_old_enough_gives_the_rates 4 buf 500 2 Hwf Hk Hfail Hpass)
    as (gn & gi & Hgn & Hgi & Hrate).
  injection Hgn as <-. injection Hgi as <-. exact Hrate.
Defined.

(** X8. On a well-formed buffer holding two or more entries, if none of the
    entries between the newest and the oldest passes the test on the time
    difference, the query returns FALSE, whatever the time stamp of the
    oldest entry is: the oldest entry held is never examined. *)
Theorem X8_no_entry_old_enough_gives_FALSE
    {A : Arith} (N : Z) (buf : GeolocateBuffer_t) (dt : Z) :
  buffer_wf N buf ->
  2 <= holding buf ->
  (forall i, 1 <= i <= holding buf - 2 -> passesAt N buf dt i = Some false) ->
  getLOSAngularRate N buf dt = Some FALSE.
Proof.
  intros Hwf Hh Hfail. pose proof Hwf as (Hlen & Hin & Hhold).
  unfold getLOSAngularRate. destruct (Z.ltb_spec (holding buf) 2); [lia|].
  rewrite slotBack_first by assumption.
  replace (S (Z.to_nat N))
    with (Z.to_nat (holding buf - 2) + S (Z.to_nat N - Z.to_nat (holding buf - 2)))%nat by lia.
  rewrite losLoop_skip; try assumption; try lia.
  2:{ intros i Hi. apply Hfail. lia. }
  replace (1 + Z.of_nat (Z.to_nat (holding buf - 2))) with (holding buf - 1) by lia.
  cbn [losLoop]. rewrite (oldestIndex_mod N buf Hin) by lia.
  fold (slotBack N buf (holding buf - 1)). now rewrite Z.eqb_refl.
Qed.

Lemma X8_no_entry_old_enough_witness :
  let s t := sample (A:=IEEE754) t identityDcm zeroVecf in
  (* the oldest entry, 900 ms before the newest, is old enough *)
  let buf := {| geobuf := [s 100; s 800; s 1000]; buf_in := 0; holding := 3 |} in
  buffer_wf 3 buf
  /\ 2 <= holding buf
  /\ passesAt 3 buf 500 1 = Some false
  /\ passesAt 3 buf 500 2 = Some true
  /\ getLOSAngularRate 3 buf 500 = Some FALSE.
Proof.
  intros s buf.
  assert (Hwf : buffer_wf 3 buf) by (repeat split; cbn; lia).
  assert (Hh : 2 <= holding buf) by (cbn; lia).
  assert (Hfail : forall i, 1 <= i <= holding buf - 2 -> passesAt 3 buf 500 i = Some false).
  { intros i Hi. cbn in Hi. replace i with 1 by lia. reflexivity. }
  split; [exact Hwf|]. split; [exact Hh|]. split; [apply Hfail; cbn; lia|].
  split; [reflexivity|].
  exact (X8_no_entry_old_enough_gives_FALSE 3 buf 500 Hwf Hh Hfail).
Defined.

(** X9. The time difference of line 358 is right across the wrap of the
    32-bit millisecond clock: when the newer time stamp is the older one
    plus [d] modulo 2^32, with [d] in the range of [int32_t], the
    difference is [d]. *)
Theorem X9_time_difference_survives_the_clock_wrap
    {A : Arith} (gn gi : GeolocateTelemetry_t) (d : Z) :
  - 2 ^ 31 <= d < 2 ^ 31 ->
  systemTime (base gn) = (systemTime (base gi) + d) mod 2 ^ 32 ->
  timeDiff gn gi = d.
Proof.
  intros Hd Hnew. unfold timeDiff, to_int32, to_uint32. rewrite Hnew.
  rewrite Zminus_mod_idemp_l.
  replace (systemTime (base gi) + d - systemTime (base gi)) with d by lia.
  destruct (Z.lt_ge_cases d 0) as [Hneg|Hpos].
  - assert (Hm : d mod 2 ^ 32 = d + 2 ^ 32).
    { symmetry. apply (Z.mod_unique d (2 ^ 32) (-1)); lia. }
    rewrite Hm. destruct (Z.ltb_spec (d + 2 ^ 32) (2 ^ 31)); lia.
  - rewrite Z.mod_small by lia.
    destruct (Z.ltb_spec d (2 ^ 31)); lia.
Qed.

Lemma X9_time_difference_witness :
  let old := sample (A:=IEEE754) 4294967196 identityDcm zeroVecf in
  let new := sample (A:=IEEE754) 400 identityDcm zeroVecf in
  - 2 ^ 31 <= 500 < 2 ^ 31
  /\ systemTime (base new) = (systemTime (base old) + 500) mod 2 ^ 32
  /\ timeDiff new old = 500.
Proof.
  intros old new.
  assert (Hd : - 2 ^ 31 <= 500 < 2 ^ 31) by lia.
  assert (Hnew : systemTime (base new) = (systemTime (base old) + 500) mod 2 ^ 32)
    by reflexivity.
  split; [exact Hd|]. split; [exact Hnew|].
  exact (X9_time_difference_survives_the_clock_wrap new old 500 Hd Hnew).
Defined.

(** X21. The requested interval is compared as an [int32_t] (line 360): an
    interval of 2^31 ms or more is read as a negative number, and on a
    well-formed buffer holding three or more entries the entry just behind
    the newest one then passes the test as soon as it is not newer than the
    newest, so that TRUE comes back with rates over an interval shorter
    than the one asked for. *)
Theorem X21_interval_of_2_31_ms_or_more_is_read_as_negative
    {A : Arith} (N : Z) (buf : GeolocateBuffer_t) (dt : Z)
    (gn gi : GeolocateTelemetry_t) :
  buffer_wf N buf ->
  3 <= holding buf ->
  2 ^ 31 <= dt < 2 ^ 32 ->
  geobufAt N buf (newestIndex N buf) = Some gn ->
  geobufAt N buf (slotBack N buf 1) = Some gi ->
  0 <= timeDiff gn gi ->
  getLOSAngularRate N buf dt = Some (TRUE (ratesBetween gi gn (timeDiff gn gi))).
Proof.
  intros Hwf Hh Hdt Hgn Hgi Hdiff.
  assert (Hpass : passesAt N buf dt 1 = Some true).
  { unfold passesAt. rewrite Hgn, Hgi. cbn. f_equal.
    unfold to_int32, to_uint32. rewrite Z.mod_small by lia.
    destruct (Z.ltb_spec dt (2 ^ 31)); lia. }
  destruct (rate_query_first_passing N buf dt 1 Hwf ltac:(lia) ltac:(lia) Hpass)
    as (gn' & gi' & Hgn' & Hgi' & Hrate).
  rewrite Hgn in Hgn'. rewrite Hgi in Hgi'.
  injection Hgn' as <-. injection Hgi' as <-. exact Hrate.
Qed.

Lemma X21_interval_read_as_negative_witness :
  let s t := sample (A:=IEEE754) t identityDcm zeroVecf in
  let buf := {| geobuf := [s 0; s 100; s 200]; buf_in := 0; holding := 3 |} in
  buffer_wf 3 buf
  /\ 3 <= holding buf
  /\ 2 ^ 31 <= 4294967295 < 2 ^ 32
  /\ timeDiff (s 200) (s 100) = 100
  /\ getLOSAngularRate 3 buf 4294967295
     = Some (TRUE (ratesBetween (s 100) (s 200) (timeDiff (s 200) (s 100)))).
Proof.
  intros s buf.
  assert (Hwf : buffer_wf 3 buf) by (repeat split; cbn; lia).
  assert (Hh : 3 <= holding buf) by (cbn; lia).
  assert (Hdt : 2 ^ 31 <= 4294967295 < 2 ^ 32) by lia.
  assert (Hgn : geobufAt 3 buf (newestIndex 3 buf) = Some (s 200)) by reflexivity.
  assert (Hgi : geobufAt 3 buf (slotBack 3 buf 1) = Some (s 100)) by reflexivity.
  assert (Hdiff : 0 <= timeDiff (s 200) (s 100)) by (vm_compute; discriminate).
  split; [exact Hwf|]. split; [exact Hh|]. split; [exact Hdt|]. split; [reflexivity|].
  exact (X21_interval_of_2_31_ms_or_more_is_read_as_negative 3 buf 4294967295
           (s 200) (s 100) Hwf Hh Hdt Hgn Hgi Hdiff).
Defined.

(** ** The image velocity *)

(** X10. On a well-formed buffer the image velocity query returns; its flag
    is TRUE exactly when the angular rate query succeeds, and with the flag
    FALSE the velocity it hands back is the zero vector. *)
Theorem X10_image_velocity_flag_follows_the_rate_query
    {A : Arith} (N : Z) (buf : GeolocateBuffer_t) (range : double) (dt : Z) :
  buffer_wf N buf ->
  exists b v,
    getImageVelocity N buf range dt = Some (b, v)
    /\ (b = true <-> exists rates, getLOSAngularRate N buf dt = Some (TRUE rates))
    /\ (b = false -> v = vector3Setf (flit 0 0)).
Proof.
  intros Hwf.
  destruct (getLOSAngularRate_defined N buf dt Hwf) as [[rates|] Hrate].
  - destruct (getLOSAngularRate_true N buf dt rates Hrate) as (gn & gi & Hgn & _ & _).
    unfold getImageVelocity. rewrite Hrate. cbn. rewrite Hgn. cbn.
    eexists _, _. split; [reflexivity|]. split; [|discriminate].
    split; [eauto|reflexivity].
  - unfold getImageVelocity. rewrite Hrate. cbn.
    eexists _, _. split; [reflexivity|]. split; [|reflexivity].
    split; [discriminate|]. intros [rates [=]].
Qed.

Lemma X10_image_velocity_flag_witness :
  let s t := sample (A:=IEEE754) t identityDcm zeroVecf in
  let buf := {| geobuf := [s 0; s 500; s 1000]; buf_in := 0; holding := 3 |} in
  buffer_wf 3 buf
  /\ exists b v,
       getImageVelocity 3 buf (dlit 100 0) 500 = Some (b, v)
       /\ (b = true <-> exists rates, getLOSAngularRate 3 buf 500 = Some (TRUE rates))
       /\ (b = false -> v = vector3Setf (flit 0 0)).
Proof.
  intros s buf.
  assert (Hwf : buffer_wf 3 buf) by (repeat split; cbn; lia).
  split; [exact Hwf|].
  exact (X10_image_velocity_flag_follows_the_rate_query 3 buf (dlit 100 0) 500 Hwf).
Defined.

Section ExactRates.
Existing Instance Exact.
Local Open Scope R_scope.

Lemma imageVelocity_exact (N : Z) (buf : GeolocateBuffer_t) (range : R) (dt : Z)
    (rates : vec3 R) (gn : GeolocateTelemetry_t) :
  getLOSAngularRate N buf dt = Some (TRUE rates) ->
  geobufAt N buf (newestIndex N buf) = Some gn ->
  getImageVelocity N buf range dt
  = Some (true,
      Vec3 ((velNED (base gn)).[NORTH]
            + range * (rates.[I2] * dcmGet (cameraDcm gn) I0 I1
                       - rates.[I1] * dcmGet (cameraDcm gn) I0 I2))
           ((velNED (base gn)).[EAST]
            + range * (rates.[I2] * dcmGet (cameraDcm gn) I1 I1
                       - rates.[I1] * dcmGet (cameraDcm gn) I1 I2))
           ((velNED (base gn)).[DOWN]
            + range * (rates.[I2] * dcmGet (cameraDcm gn) I2 I1
                       - rates.[I1] * dcmGet (cameraDcm gn) I2 I2))).
Proof.
  intros Hrate Hgn. unfold getImageVelocity. rewrite Hrate. cbn [mbind option_bind].
  rewrite Hgn. cbn [mbind option_bind]. do 2 f_equal.
  destruct rates as [w0 w1 w2]. destruct (velNED (base gn)) as [vn ve vd].
  destruct (cameraDcm gn) as [[a b c] [d e f] [g h i]].
  unfold vector3Sumf, dcmApplyRotation, vector3Crossf, dot3, dcmGet.
  cbn [at3 c0 c1 c2]. exact_arith. lit_norm.
  f_equal; as_real; field.
Qed.

Lemma matrixMultiplyTransAf_assoc (D R0 : DCM_t) :
  matrixMultiplyTransAf D (matrixMultiplyf D R0)
  = matrixMultiplyf (matrixMultiplyTransAf D D) R0.
Proof.
  destruct D as [[a b c] [d e f] [g h i]].
  destruct R0 as [[a' b' c'] [d' e' f'] [g' h' i']].
  unfold matrixMultiplyTransAf, matrixMultiplyf, column, dcmGet, dot3.
  cbn [at3 c0 c1 c2]. exact_arith.
  f_equal; (f_equal; as_real; ring).
Qed.

Lemma identity_matrixMultiplyf (R0 : DCM_t) : matrixMultiplyf identityDcm R0 = R0.
Proof.
  destruct R0 as [[a b c] [d e f] [g h i]].
  unfold matrixMultiplyf, identityDcm, column, dcmGet, dot3.
  cbn [at3 c0 c1 c2]. unfold fzero, fone. exact_arith. lit_norm.
  f_equal; (f_equal; as_real; field).
Qed.

(** X11. In exact arithmetic, when the rate query succeeds the image
    velocity is the platform velocity of the newest entry plus the range
    times a combination of the second and third columns of the newest
    camera rotation: the rate about the line of sight (the first rate) has
    no part in it; and with the other two rates zero the image moves as
    fast as the camera (the comment of lines 289-290). *)
Theorem X11_image_velocity_ignores_the_roll_rate
    (N : Z) (buf : GeolocateBuffer_t) (range : R) (dt : Z)
    (rates : vec3 R) (gn : GeolocateTelemetry_t) :
  getLOSAngularRate N buf dt = Some (TRUE rates) ->
  geobufAt N buf (newestIndex N buf) = Some gn ->
  (exists v,
      getImageVelocity N buf range dt = Some (true, v)
      /\ forall i, v.[i] = (velNED (base gn)).[i]
                          + range * (rates.[I2] * dcmGet (cameraDcm gn) i I1
                                     - rates.[I1] * dcmGet (cameraDcm gn) i I2))
  /\ (rates.[I1] = 0 -> rates.[I2] = 0 ->
      getImageVelocity N buf range dt = Some (true, velNED (base gn))).
Proof.
  intros Hrate Hgn. rewrite (imageVelocity_exact N buf range dt rates gn Hrate Hgn).
  split.
  - eexists. split; [reflexivity|]. intros []; reflexivity.
  - intros -> ->. do 2 f_equal. destruct (velNED (base gn)) as [vn ve vd].
    cbn [at3 c0 c1 c2]. f_equal; as_real; ring.
Qed.

(** X12. In exact arithmetic, two entries with the same camera rotation
    give zero rates, for every time difference other than zero: the product
    of the transpose of a matrix with the matrix is symmetric, whether the
    matrix is a rotation or not. *)
Theorem X12_unchanged_camera_gives_zero_rates
    (gi gn : GeolocateTelemetry_t) (diff : Z) :
  diff <> 0%Z ->
  cameraDcm gi = cameraDcm gn ->
  ratesBetween gi gn diff = zeroVecf.
Proof.
  intros _ Hsame. unfold ratesBetween, zeroVecf, fzero. rewrite Hsame.
  destruct (cameraDcm gn) as [[a b c] [d e f] [g h i]].
  unfold matrixMultiplyTransAf, column, dcmGet, dot3.
  cbn [at3 c0 c1 c2]. exact_arith. lit_norm.
  f_equal; as_real; field.
Qed.

(** X13. In exact arithmetic, when the older camera rotation [D] is
    orthonormal and the newer one is [D] composed with a rotation [R0],
    the rates are half the differences of the off-diagonal entries of
    [R0], divided by the time: they depend on the relative rotation only,
    not on where the camera points. *)
Theorem X13_rates_depend_on_the_relative_rotation_only
    (gi gn : GeolocateTelemetry_t) (R0 : DCM_t) (diff : Z) :
  matrixMultiplyTransAf (cameraDcm gi) (cameraDcm gi) = identityDcm ->
  cameraDcm gn = matrixMultiplyf (cameraDcm gi) R0 ->
  ratesBetween gi gn diff
  = Vec3 ((dcmGet R0 I2 I1 - dcmGet R0 I1 I2) / 2 * inverseTime diff)
         ((dcmGet R0 I0 I2 - dcmGet R0 I2 I0) / 2 * inverseTime diff)
         ((dcmGet R0 I1 I0 - dcmGet R0 I0 I1) / 2 * inverseTime diff).
Proof.
  intros Horth Hnew. unfold ratesBetween.
  rewrite Hnew, matrixMultiplyTransAf_assoc, Horth, identity_matrixMultiplyf.
  exact_arith. lit_norm. f_equal; as_real; field.
Qed.

End ExactRates.

Lemma X11_image_velocity_witness :
  let s t := sample (A:=Exact) t identityDcm zeroVecf in
  let buf := {| geobuf := [s 0; s 500; s 1000]; buf_in := 0; holding := 3 |} in
  let rates := ratesBetween (s 500) (s 1000) 500 in
  getLOSAngularRate 3 buf 500 = Some (TRUE rates)
  /\ geobufAt 3 buf (newestIndex 3 buf) = Some (s 1000)
  /\ exists v, getImageVelocity 3 buf 100%R 500 = Some (true, v).
Proof.
  intros s buf rates.
  assert (Hrate : getLOSAngularRate 3 buf 500 = Some (TRUE rates)) by reflexivity.
  assert (Hgn : geobufAt 3 buf (newestIndex 3 buf) = Some (s 1000)) by reflexivity.
  split; [exact Hrate|]. split; [exact Hgn|].
  destruct (X11_image_velocity_ignores_the_roll_rate 3 buf 100%R 500 rates (s 1000) Hrate Hgn)
    as [(v & Hv & _) _].
  exists v. exact Hv.
Defined.

Lemma X12_unchanged_camera_witness :
  let s t := sample (A:=Exact) t identityDcm zeroVecf in
  500 <> 0 /\ cameraDcm (s 0) = cameraDcm (s 500)
  /\ ratesBetween (s 0) (s 500) 500 = zeroVecf.
Proof.
  intros s.
  assert (Hd : 500 <> 0) by lia.
  assert (Hsame : cameraDcm (s 0) = cameraDcm (s 500)) by reflexivity.
  split; [exact Hd|]. split; [exact Hsame|].
  exact (X12_unchanged_camera_gives_zero_rates (s 0) (s 500) 500 Hd Hsame).
Defined.

Lemma identityDcm_orthonormal :
  @matrixMultiplyTransAf Exact identityDcm identityDcm = identityDcm.
Proof.
  unfold matrixMultiplyTransAf, identityDcm, column, dcmGet, dot3, fzero, fone.
  cbn [at3 c0 c1 c2]. exact_arith. lit_norm.
  f_equal; (f_equal; as_real; field).
Qed.

Lemma X13_relative_rotation_witness :
  (* a quarter turn of the pan between the two entries *)
  let quarter : @DCM_t Exact :=
    Vec3 (Vec3 0%R (-1)%R 0%R) (Vec3 1%R 0%R 0%R) (Vec3 0%R 0%R 1%R) in
  let gi := sample (A:=Exact) 0 identityDcm zeroVecf in
  let gn := sample (A:=Exact) 500 (matrixMultiplyf identityDcm quarter) zeroVecf in
  matrixMultiplyTransAf (cameraDcm gi) (cameraDcm gi) = identityDcm
  /\ cameraDcm gn = matrixMultiplyf (cameraDcm gi) quarter
  /\ ratesBetween gi gn 500
     = Vec3 ((0 - 0) / 2 * @inverseTime Exact 500)%R
            ((0 - 0) / 2 * @inverseTime Exact 500)%R
            ((1 - -1) / 2 * @inverseTime Exact 500)%R.
Proof.
  intros quarter gi gn.
  assert (Horth : matrixMultiplyTransAf (cameraDcm gi) (cameraDcm gi) = identityDcm)
    by exact identityDcm_orthonormal.
  assert (Hnew : cameraDcm gn = matrixMultiplyf (cameraDcm gi) quarter) by reflexivity.
  split; [exact Horth|]. split; [exact Hnew|].
  exact (X13_rates_depend_on_the_relative_rotation_only gi gn quarter 500 Horth Hnew).
Defined.

(** ** The offset projector and the decoder, further *)

Section DecoderMore.
Context {A : Arith} {L : Libm} {E : OrionLib}.

(** The core record of a decoded record is the decoded core record with
    another tilt. *)
Lemma Decode_base (pPkt : OrionPkt_t) (base0 : GeolocateTelemetryCore_t)
    (r : GeolocateTelemetry_t) :
  decodeGeolocateTelemetryCorePacketStructure pPkt = Some base0 ->
  DecodeGeolocateTelemetry pPkt = TRUE r ->
  base r = set_tilt base0 (wrapAngle90f (extendedTilt (tilt base0))).
Proof.
  intros Hdec. unfold DecodeGeolocateTelemetry, extendedTilt. rewrite Hdec.
  destruct (computeDateAndTimeFromWeekAndItow _ _ _) as [[[[[y mo] d] h] mi] se].
  destruct (deg2radf (flit 90 0) <f tilt base0);
    destruct (llaToECEFandTrig _) as [pos trig];
    intros [= <-]; destruct base0; reflexivity.
Qed.

(** The decoded record depends on the core record only through the record
    with the extended tilt (lines 41-43). *)
Lemma Decode_congr (p p' : OrionPkt_t) (b b' : GeolocateTelemetryCore_t) :
  decodeGeolocateTelemetryCorePacketStructure p = Some b ->
  decodeGeolocateTelemetryCorePacketStructure p' = Some b' ->
  (if deg2radf (flit 90 0) <f tilt b
   then set_tilt b (tilt b -f deg2radf (flit 360 0)) else b)
  = (if deg2radf (flit 90 0) <f tilt b'
     then set_tilt b' (tilt b' -f deg2radf (flit 360 0)) else b') ->
  DecodeGeolocateTelemetry p = DecodeGeolocateTelemetry p'.
Proof.
  intros Hp Hp' Hsame. unfold DecodeGeolocateTelemetry. rewrite Hp, Hp'.
  assert (Hweek : gpsWeek b = gpsWeek b').
  { apply (f_equal gpsWeek) in Hsame.
    destruct (_ <f tilt b), (_ <f tilt b'), b, b'; exact Hsame. }
  assert (Hitow : gpsITOW b = gpsITOW b').
  { apply (f_equal gpsITOW) in Hsame.
    destruct (_ <f tilt b), (_ <f tilt b'), b, b'; exact Hsame. }
  assert (Hleap : leapSeconds b = leapSeconds b').
  { apply (f_equal leapSeconds) in Hsame.
    destruct (_ <f tilt b), (_ <f tilt b'), b, b'; exact Hsame. }
  rewrite Hweek, Hitow, Hleap, Hsame. reflexivity.
Qed.

End DecoderMore.

(** X15. The decoder returns FALSE exactly when the packet does not decode
    to a core record; and when it does, the core record of the result is
    the decoded one in every field but the tilt, on both paths through the
    tilt extension of lines 41-43. *)
Theorem X15_decoder_changes_only_the_tilt
    {A : Arith} {L : Libm} {E : OrionLib} (pPkt : OrionPkt_t) :
  (DecodeGeolocateTelemetry pPkt = FALSE
   <-> decodeGeolocateTelemetryCorePacketStructure pPkt = None)
  /\ (forall base0,
        decodeGeolocateTelemetryCorePacketStructure pPkt = Some base0 ->
        exists r,
          DecodeGeolocateTelemetry pPkt = TRUE r
          /\ base r = set_tilt base0 (tilt (base r))
          /\ tilt (base r) = wrapAngle90f (extendedTilt (tilt base0))).
Proof.
  split.
  - split.
    + destruct (decodeGeolocateTelemetryCorePacketStructure pPkt) as [base0|] eqn:Hdec;
        [|reflexivity].
      destruct (Decode_fields pPkt base0 Hdec) as (r & Hr & _).
      rewrite Hr. discriminate.
    + apply Decode_failure.
  - intros base0 Hdec.
    destruct (Decode_fields pPkt base0 Hdec) as (r & Hr & Ht & _).
    exists r. split; [exact Hr|]. split; [|exact Ht].
    rewrite Ht. exact (Decode_base pPkt base0 r Hdec Hr).
Qed.

Section ExactMore.
Existing Instance Exact.
Existing Instance ExactLibm.
Context {E : OrionLib}.
Local Open Scope R_scope.

(** X17. In exact arithmetic, for a packet whose tilt is in (-180, 180]
    degrees: when the core record of the decoded record is encoded again by
    [FormGeolocateTelemetry] and the codec gives that core record back, the
    decoder returns the very same record.  The tilt it stored is one it
    leaves alone. *)
Theorem X17_decoding_the_re_encoded_record_gives_it_back
    (pPkt : OrionPkt_t) (base0 : GeolocateTelemetryCore_t) (r : GeolocateTelemetry_t) :
  decodeGeolocateTelemetryCorePacketStructure pPkt = Some base0 ->
  - deg2radf (flit 180 0) < tilt base0 <= deg2radf (flit 180 0) ->
  DecodeGeolocateTelemetry pPkt = TRUE r ->
  decodeGeolocateTelemetryCorePacketStructure (FormGeolocateTelemetry r) = Some (base r) ->
  DecodeGeolocateTelemetry (FormGeolocateTelemetry r) = TRUE r.
Proof.
  intros Hdec Hrange Hr Hcodec. rewrite <- Hr.
  apply (Decode_congr _ _ _ _ Hcodec Hdec).
  rewrite (Decode_base pPkt base0 r Hdec Hr).
  assert (Hext : - deg2radf (flit 270 0) < extendedTilt (tilt base0) <= deg2radf (flit 90 0)).
  { unfold extendedTilt. rewrite !deg2radf_exact in *. exact_arith.
    rewrite !exact_lit_int in *. unfold ExactR.ltb.
    destruct (Rlt_dec _ (tilt base0)); lra. }
  rewrite wrapAngle90f_extended by exact Hext.
  replace (tilt (set_tilt base0 (extendedTilt (tilt base0))))
    with (extendedTilt (tilt base0)) by (destruct base0; reflexivity).
  exact_arith. unfold ExactR.ltb at 1.
  destruct (Rlt_dec _ (extendedTilt (tilt base0))) as [Hgt|_]; [lra|].
  unfold extendedTilt. exact_arith. unfold ExactR.ltb.
  destruct (Rlt_dec _ (tilt base0)); destruct base0; reflexivity.
Qed.

End ExactMore.

Lemma X15_decoder_changes_only_the_tilt_witness :
  let E := @FlatEarth IEEE754 in
  let pkt := corePacket (A:=IEEE754) (deg2radf (flit 100 0)) fzero in
  exists r,
    @DecodeGeolocateTelemetry IEEE754 SmallAngle E pkt = TRUE r
    /\ base r = set_tilt pkt (tilt (base r)).
Proof.
  intros E pkt.
  destruct (proj2 (@X15_decoder_changes_only_the_tilt IEEE754 SmallAngle E pkt) pkt eq_refl)
    as (r & Hr & Hbase & _).
  exists r. split; assumption.
Defined.

Section StoredTilt.
Existing Instance IEEE754.
Context {L : Libm} {E : OrionLib}.

(** X16. In IEEE binary32, for every packet whose tilt is a binary32 number
    above -180 and at most 180 degrees, other than the three numbers
    between the decoder's 90 degrees and 13176799 * 2^-23 radians: the tilt
    stored in the decoded record is above -270 and at most 90 degrees; it
    is the tilt of the packet when that is at most 90 degrees, and 360
    degrees less otherwise. *)
Theorem X16_stored_tilt_is_between_minus_270_and_90_degrees
    (pPkt : OrionPkt_t) (base0 : GeolocateTelemetryCore_t) :
  decodeGeolocateTelemetryCorePacketStructure pPkt = Some base0 ->
  valid_binary 24 128 (tilt base0) = true ->
  (fneg (deg2radf (flit 180 0)) <f tilt base0) = true ->
  (tilt base0 <=f deg2radf (flit 180 0)) = true ->
  (tilt base0 <=f deg2radf (flit 90 0)) = true
  \/ (S754_finite false 13176799 (-23) <=f tilt base0) = true ->
  exists r,
    DecodeGeolocateTelemetry pPkt = TRUE r
    /\ (fneg (deg2radf (flit 270 0)) <f tilt (base r)) = true
    /\ (tilt (base r) <=f deg2radf (flit 90 0)) = true
    /\ ((tilt base0 <=f deg2radf (flit 90 0)) = true -> tilt (base r) = tilt base0)
    /\ ((S754_finite false 13176799 (-23) <=f tilt base0) = true ->
        tilt (base r) = tilt base0 -f deg2radf (flit 360 0)).
Proof.
  intros Hdec Hvalid Hlo Hhi Hcase.
  destruct (Decode_fields pPkt base0 Hdec) as (r & Hr & Ht & _ & _).
  exists r. split; [exact Hr|]. rewrite Ht.
  assert (Hkept : (tilt base0 <=f deg2radf (flit 90 0)) = true ->
                  wrapAngle90f (extendedTilt (tilt base0)) = tilt base0
                  /\ (fneg (deg2radf (flit 270 0)) <f tilt base0) = true).
  { intros H90. destruct (kept_tilt_window (tilt base0) Hlo H90) as (Hext & Hwrap & Hin).
    rewrite Hext. auto. }
  assert (Hextended : (S754_finite false 13176799 (-23) <=f tilt base0) = true ->
                      wrapAngle90f (extendedTilt (tilt base0))
                      = tilt base0 -f deg2radf (flit 360 0)
                      /\ (fneg (deg2radf (flit 270 0)) <f extendedTilt (tilt base0)) = true
                      /\ (extendedTilt (tilt base0) <=f deg2radf (flit 90 0)) = true
                      /\ wrapAngle90f (extendedTilt (tilt base0)) = extendedTilt (tilt base0)).
  { intros H. destruct (extended_tilt_window (tilt base0) Hvalid H Hhi)
      as (Hext & Hwrap & Hin & _ & H90).
    rewrite Hwrap. auto. }
  destruct Hcase as [H90|Habove].
  - destruct (Hkept H90) as [Hsame Hin]. rewrite Hsame.
    split; [exact Hin|]. split; [exact H90|]. split; [reflexivity|].
    intros Habove. destruct (Hextended Habove) as (Heq & _). rewrite <- Heq. now symmetry.
  - destruct (Hextended Habove) as (Heq & Hin & H90 & Hwrap). rewrite Hwrap.
    split; [exact Hin|]. split; [exact H90|]. split; [|intros _; now rewrite <- Hwrap].
    intros Hle. destruct (Hkept Hle) as [Hsame _]. now rewrite <- Hwrap.
Qed.

End StoredTilt.

Lemma X16_stored_tilt_witness :
  let E := @FlatEarth IEEE754 in
  let pkt := corePacket (A:=IEEE754) (deg2radf (flit 100 0)) fzero in
  @decodeGeolocateTelemetryCorePacketStructure IEEE754 E pkt = Some pkt
  /\ valid_binary 24 128 (tilt pkt) = true
  /\ (fneg (deg2radf (flit 180 0)) <f tilt pkt) = true
  /\ (tilt pkt <=f deg2radf (flit 180 0)) = true
  /\ (@fle IEEE754 (S754_finite false 13176799 (-23)) (tilt pkt)) = true
  /\ exists r,
       @DecodeGeolocateTelemetry IEEE754 SmallAngle E pkt = TRUE r
       /\ (fneg (deg2radf (flit 270 0)) <f tilt (base r)) = true
       /\ (tilt (base r) <=f deg2radf (flit 90 0)) = true.
Proof.
  intros E pkt.
  assert (Hdec : @decodeGeolocateTelemetryCorePacketStructure IEEE754 E pkt = Some pkt)
    by reflexivity.
  assert (Hvalid : valid_binary 24 128 (tilt pkt) = true) by (vm_compute; reflexivity).
  assert (Hlo : (fneg (deg2radf (flit 180 0)) <f tilt pkt) = true) by (vm_compute; reflexivity).
  assert (Hhi : (tilt pkt <=f deg2radf (flit 180 0)) = true) by (vm_compute; reflexivity).
  assert (Habove : (@fle IEEE754 (S754_finite false 13176799 (-23)) (tilt pkt)) = true)
    by (vm_compute; reflexivity).
  split; [exact Hdec|]. split; [exact Hvalid|]. split; [exact Hlo|]. split; [exact Hhi|].
  split; [exact Habove|].
  destruct (@X16_stored_tilt_is_between_minus_270_and_90_degrees SmallAngle E pkt pkt
              Hdec Hvalid Hlo Hhi (or_intror Habove))
    as (r & Hr & Hin & H90 & _).
  exists r. auto.
Defined.

Lemma X17_re_encoded_record_witness :
  let E := @FlatEarth Exact in
  let pkt := corePacket (A:=Exact) (deg2radf (flit 100 0)) fzero in
  (- @deg2radf Exact (flit 180 0) < tilt pkt <= @deg2radf Exact (flit 180 0))%R
  /\ exists r,
       @DecodeGeolocateTelemetry Exact ExactLibm E pkt = TRUE r
       /\ @DecodeGeolocateTelemetry Exact ExactLibm E
            (@FormGeolocateTelemetry Exact E r) = TRUE r.
Proof.
  intros E pkt.
  assert (Hdec : @decodeGeolocateTelemetryCorePacketStructure Exact E pkt = Some pkt)
    by reflexivity.
  assert (Hrange : (- @deg2radf Exact (flit 180 0) < tilt pkt
                    <= @deg2radf Exact (flit 180 0))%R).
  { cbn [pkt corePacket tilt]. rewrite !deg2radf_exact. exact_arith.
    rewrite !exact_lit_int. lra. }
  split; [exact Hrange|].
  destruct (@Decode_fields Exact ExactLibm E pkt pkt Hdec) as (r & Hr & _).
  exists r. split; [exact Hr|].
  exact (@X17_decoding_the_re_encoded_record_gives_it_back E pkt pkt r
           Hdec Hrange Hr eq_refl).
Defined.

(** ** The terrain intersector, further *)

Section TerrainMore.
Existing Instance IEEE754.

Lemma sf_same_eq (x y : spec_float) : sf_same x y = true -> x = y.
Proof.
  destruct x as [a|a| |s m e], y as [b|b| |s' m' e']; cbn; try discriminate; try reflexivity.
  - intros H. apply Bool.eqb_prop in H. now subst.
  - intros H. apply Bool.eqb_prop in H. now subst.
  - intros H. apply andb_prop in H as [H He]. apply andb_prop in H as [Hs Hm].
    apply Bool.eqb_prop in Hs. apply Pos.eqb_eq in Hm. apply Z.eqb_eq in He. now subst.
Qed.

Lemma fine_step_is_fine : negb (@deq IEEE754 StepFine StepFine) = false.
Proof. vm_compute. reflexivity. Qed.

Lemma coarse_start_within : (@dle IEEE754 StepCoarse MaxDistance) = true.
Proof. vm_compute. reflexivity. Qed.

Lemma fineReaches_sound (under : @double IEEE754 -> bool) (fuel : nat) :
  forall low End range target : @double IEEE754,
  fineReaches fuel low End range target = true ->
  under target = true ->
  exists r,
    rayMarch fuel under StepFine End range = Some (true, r)
    /\ under r = true /\ (low <d r) = true /\ (r <=d target) = true.
Proof.
  induction fuel as [|fuel IH]; intros low End range target; [discriminate|].
  cbn [fineReaches rayMarch]. rewrite fine_step_is_fine.
  destruct (range <=d End); [|discriminate].
  destruct (low <d range) eqn:Hlow; [|discriminate].
  destruct (range <=d target) eqn:Hup; [|discriminate].
  cbn [andb]. intros Hcheck Htarget.
  destruct (under range) eqn:Hunder.
  - rewrite fine_step_is_fine. exists range. auto.
  - destruct (sf_same range target) eqn:Hsame.
    + apply sf_same_eq in Hsame. subst range. congruence.
    + now apply IH.
Qed.

Lemma coarseFinds_sound (under : @double IEEE754 -> bool) (k : nat) :
  forall (fuel : nat) (j : Z) (Step End range : @double IEEE754),
  coarseFinds k fuel j Step End range = true ->
  forall i : nat, (i < k)%nat ->
  (forall m, j <= m < j + Z.of_nat i -> under (dlit (30 * m) 0) = false) ->
  under (dlit (30 * (j + Z.of_nat i)) 0) = true ->
  exists r,
    rayMarch fuel under Step End range = Some (true, r)
    /\ under r = true
    /\ (dlit (30 * (j + Z.of_nat i - 1)) 0 <d r) = true
    /\ (r <=d dlit (30 * (j + Z.of_nat i)) 0) = true.
Proof.
  induction k as [|k IH]; intros fuel j Step End range Hcheck i Hi Hbefore Hat; [lia|].
  destruct fuel as [|fuel]; [discriminate|].
  cbn [coarseFinds rayMarch] in *.
  destruct (sf_same range (@dlit IEEE754 (30 * j) 0)) eqn:Hrange; [|discriminate].
  destruct (sf_same _ (@dlit IEEE754 (30 * (j - 1)) 0)) eqn:Hback; [|discriminate].
  destruct (range <=d End); [|discriminate].
  destruct (negb (Step ==d StepFine)); [|discriminate].
  destruct (negb (_ ==d StepFine)); [|discriminate].
  cbn [andb] in Hcheck.
  destruct (fineReaches fuel _ _ _ range) eqn:Hfine; [|discriminate].
  apply sf_same_eq in Hrange. apply sf_same_eq in Hback.
  destruct i as [|i].
  - replace (j + Z.of_nat 0) with j in * by lia.
    rewrite <- Hrange in Hat. rewrite Hat.
    destruct (fineReaches_sound under fuel _ _ _ _ Hfine Hat) as (r & Hr & Hu & Hlo & Hup).
    exists r. rewrite <- Hback, <- Hrange. auto.
  - assert (Hnot : under range = false) by (rewrite Hrange; apply Hbefore; lia).
    rewrite Hnot.
    destruct (IH fuel (j + 1) _ End _ Hcheck i ltac:(lia)) as (r & Hr & Hu & Hlo & Hup).
    + intros m Hm. apply Hbefore. lia.
    + replace (j + 1 + Z.of_nat i) with (j + Z.of_nat (S i)) by lia. exact Hat.
    + exists r. replace (j + Z.of_nat (S i)) with (j + 1 + Z.of_nat i) by lia. auto.
Qed.

(** The first hundred coarse samples are at 30, 60, ..., 3000 metres, and
    from each of them the fine march finds the sample again. *)
Lemma coarse_samples_to_3000 :
  coarseFinds 100 420 1 StepCoarse MaxDistance StepCoarse = true.
Proof. vm_compute. reflexivity. Qed.

End TerrainMore.

(** X18. In IEEE arithmetic, for every record, elevation lookup and earth
    model, the terrain intersector returns, and whenever it returns TRUE
    the position it hands back is the point of the ray at the returned
    range with the altitude replaced by the ground height looked up there,
    that point of the ray is at or under the ground, and the returned range
    is within the maximum distance of 15000 m. *)
Theorem X18_terrain_hit_is_the_ray_point_clamped_to_the_ground
    {E : @OrionLib IEEE754} (pGeo : GeolocateTelemetry_t)
    (getElevationHAE : @double IEEE754 -> @double IEEE754 -> @float IEEE754)
    (PosLLA : vec3 (@double IEEE754)) (n : nat) :
  exists (b : bool) (pos : vec3 (@double IEEE754)) (range : @double IEEE754),
    getTerrainIntersection (n + 420) pGeo getElevationHAE PosLLA = Some (b, pos, range)
    /\ (b = true ->
        pos = set3 (rayPointLLA pGeo range) ALT
                (f2d (getElevationHAE (rayPointLLA pGeo range).[LAT]
                                      (rayPointLLA pGeo range).[LON]))
        /\ underGround pGeo getElevationHAE range = true
        /\ (range <=d MaxDistance) = true).
Proof.
  unfold getTerrainIntersection.
  pose proof (terrainLoop_rayMarch pGeo getElevationHAE (n + 420)
                StepCoarse MaxDistance PosLLA StepCoarse) as Hview.
  destruct (marchReturns_sound (underGround pGeo getElevationHAE) 420 _ _ _
              march_from_start_returns) as (res & Hres & Hwithin).
  apply (rayMarch_more_fuel _ _ _ _ _ _ n) in Hres.
  rewrite Hres in Hview.
  destruct (terrainLoop (n + 420) pGeo getElevationHAE StepCoarse MaxDistance PosLLA StepCoarse)
    as [[[b pos] r]|] eqn:Hloop; [|discriminate].
  cbn [option_map fst snd] in Hview. injection Hview as <-.
  exists b, pos, r. split; [reflexivity|].
  intros ->. cbn [fst snd] in Hwithin.
  destruct (terrainLoop_success _ _ _ _ _ _ _ _ _ Hloop) as [Hpos Hunder].
  auto.
Qed.

(** X19. In IEEE arithmetic the contents of [PosLLA] on entry never reach
    the result of the terrain intersector: the array is written before it
    is read, on every path, since the first test of the loop condition
    (30 m against 15000 m) always passes. *)
Theorem X19_terrain_result_ignores_the_initial_position
    {E : @OrionLib IEEE754} (fuel : nat) (pGeo : GeolocateTelemetry_t)
    (getElevationHAE : @double IEEE754 -> @double IEEE754 -> @float IEEE754)
    (PosLLA PosLLA' : vec3 (@double IEEE754)) :
  getTerrainIntersection fuel pGeo getElevationHAE PosLLA
  = getTerrainIntersection fuel pGeo getElevationHAE PosLLA'.
Proof.
  unfold getTerrainIntersection. destruct fuel as [|fuel]; [reflexivity|].
  cbn [terrainLoop]. rewrite coarse_start_within. reflexivity.
Qed.

(** X20. In IEEE arithmetic, when the ray first meets the ground at one of
    the coarse samples up to 3000 m (the sample at 30 k metres is at or
    under the ground, the coarse samples before it are above), the terrain
    intersector returns TRUE: the returned range lies in the last coarse
    interval, above 30 (k - 1) and at most 30 k metres, the point of the
    ray there is at or under the ground, and the position is that point
    with the ground height for altitude. *)
Theorem X20_ground_met_within_3000m_is_found
    {E : @OrionLib IEEE754} (pGeo : GeolocateTelemetry_t)
    (getElevationHAE : @double IEEE754 -> @double IEEE754 -> @float IEEE754)
    (PosLLA : vec3 (@double IEEE754)) (n : nat) (k : Z) :
  1 <= k <= 100 ->
  (forall m, 1 <= m < k ->
     underGround pGeo getElevationHAE (@dlit IEEE754 (30 * m) 0) = false) ->
  underGround pGeo getElevationHAE (@dlit IEEE754 (30 * k) 0) = true ->
  exists (pos : vec3 (@double IEEE754)) (range : @double IEEE754),
    getTerrainIntersection (n + 420) pGeo getElevationHAE PosLLA = Some (true, pos, range)
    /\ (@dlit IEEE754 (30 * (k - 1)) 0 <d range) = true
    /\ (range <=d @dlit IEEE754 (30 * k) 0) = true
    /\ underGround pGeo getElevationHAE range = true
    /\ pos = set3 (rayPointLLA pGeo range) ALT
               (f2d (getElevationHAE (rayPointLLA pGeo range).[LAT]
                                     (rayPointLLA pGeo range).[LON])).
Proof.
  intros Hk Hbefore Hat.
  destruct (coarseFinds_sound (underGround pGeo getElevationHAE) 100 420 1 _ _ _
              coarse_samples_to_3000 (Z.to_nat (k - 1)) ltac:(lia))
    as (r & Hr & Hu & Hlo & Hup).
  { intros m Hm. apply Hbefore. lia. }
  { replace (1 + Z.of_nat (Z.to_nat (k - 1))) with k by lia. exact Hat. }
  replace (1 + Z.of_nat (Z.to_nat (k - 1))) with k in * by lia.
  apply (rayMarch_more_fuel _ _ _ _ _ _ n) in Hr.
  unfold getTerrainIntersection.
  pose proof (terrainLoop_rayMarch pGeo getElevationHAE (n + 420)
                StepCoarse MaxDistance PosLLA StepCoarse) as Hview.
  rewrite Hr in Hview.
  destruct (terrainLoop (n + 420) pGeo getElevationHAE StepCoarse MaxDistance PosLLA StepCoarse)
    as [[[b pos] r']|] eqn:Hloop; [|discriminate].
  cbn [option_map fst snd] in Hview. injection Hview as -> ->.
  destruct (terrainLoop_success _ _ _ _ _ _ _ _ _ Hloop) as [Hpos _].
  exists pos, r. auto.
Qed.

Lemma X20_ground_met_within_3000m_witness :
  (* 100 m above the flat earth, looking straight down on ground at 48.5 m:
     the sample at 30 m is above the ground, the one at 60 m is under it *)
  let E := @FlatEarth IEEE754 in
  let pGeo := lookingDown (A:=IEEE754) 100 in
  let elev := fun _ _ : @double IEEE754 => @flit IEEE754 485 (-1) in
  1 <= 2 <= 100
  /\ underGround pGeo elev (@dlit IEEE754 (30 * 1) 0) = false
  /\ underGround pGeo elev (@dlit IEEE754 (30 * 2) 0) = true
  /\ exists pos range,
       getTerrainIntersection (0 + 420) pGeo elev zeroVecd = Some (true, pos, range)
       /\ (@dlit IEEE754 (30 * (2 - 1)) 0 <d range) = true
       /\ (range <=d @dlit IEEE754 (30 * 2) 0) = true.
Proof.
  intros E pGeo elev.
  assert (Hk : 1 <= 2 <= 100) by lia.
  assert (Hbefore : forall m, 1 <= m < 2 ->
            underGround pGeo elev (@dlit IEEE754 (30 * m) 0) = false).
  { intros m Hm. replace m with 1 by lia. vm_compute. reflexivity. }
  assert (Hat : underGround pGeo elev (@dlit IEEE754 (30 * 2) 0) = true)
    by (vm_compute; reflexivity).
  split; [exact Hk|]. split; [apply Hbefore; lia|]. split; [exact Hat|].
  destruct (X20_ground_met_within_3000m_is_found pGeo elev zeroVecd 0 2 Hk Hbefore Hat)
    as (pos & range & Hrun & Hlo & Hup & _).
  exists pos, range. auto.
Defined.
